(** * RaKUn 2.0 keyphrase detector: a shallow embedding of
      [rakun2/class_rakun.py] and the properties of its pipeline.

    Conventions of the embedding.
    - A Python [str] is the list of its Unicode code points, so that [len]
      is [length] and [+] is [++].
    - Python numbers ([int] and [float]) are read as exact rationals [Q];
      the only place where a non-finite numpy value can arise (a zero
      divisor in the cohesion score) is kept apart as [None].
    - Dictionaries whose iteration order is never observed are [gmap]s;
      the ones that are iterated (graph nodes, the rank table) are
      association lists in insertion order.
    - A raised exception is the [Raise] branch of [result]. *)

From Stdlib Require Import QArith Qabs.
From stdpp Require Import gmap strings list fin_maps sorting.

Set Default Proof Using "Type".
Set Warnings "-clear-no-such-hyp".
Open Scope Q_scope.
Open Scope stdpp_scope.

(* ================================================================== *)
(** * Python primitives *)
(* ================================================================== *)

Definition char := N.
Definition str := list char.

Definition SPACE : char := 32%N.
Definition NEWLINE : char := 10%N.
(** U+FF0C, the full-width comma of [tokenize]. *)
Definition FULLWIDTH_COMMA : char := 65292%N.

(** An ASCII literal as a Python string. *)
Definition py (s : string) : str :=
  map Ascii.N_of_ascii (String.list_ascii_of_string s).

Inductive exn :=
| UnboundLocalError
| KeyError
| TypeError
| OSError
| ZeroDivisionError
| PowerIterationFailedConvergence.

Inductive result (A : Type) :=
| Ok (a : A)
| Raise (e : exn).
Arguments Ok {A} a.
Arguments Raise {A} e.

#[global] Instance result_ret : MRet result := λ A a, Ok a.
#[global] Instance result_bind : MBind result := λ A B f m,
  match m with
  | Ok a => f a
  | Raise e => Raise e
  end.

#[global] Instance result_fmap : FMap result := λ A B f m,
  match m with
  | Ok a => Ok (f a)
  | Raise e => Raise e
  end.

(** [d[k]] on a dictionary: [KeyError] when the key is absent. *)
Definition getitem `{Countable K} {V} (d : gmap K V) (k : K) : result V :=
  match d !! k with
  | Some v => Ok v
  | None => Raise KeyError
  end.

(** [s.split(sep)] for a one-character separator. *)
Fixpoint split (sep : char) (s : str) : list str :=
  match s with
  | [] => [[]]
  | c :: s' =>
      if decide (c = sep) then [] :: split sep s'
      else match split sep s' with
           | h :: t => (c :: h) :: t
           | [] => [[c]]
           end
  end.

(** [sep.join(parts)]. *)
Fixpoint join (sep : str) (parts : list str) : str :=
  match parts with
  | [] => []
  | [p] => p
  | p :: ps => p ++ sep ++ join sep ps
  end.

(** How often [x] occurs in [l]. *)
Definition occurrences `{EqDecision A} (x : A) (l : list A) : nat :=
  length (filter (λ y, y = x) l).

(** [s.count(c)] for a one-character pattern. *)
Definition count (c : char) (s : str) : nat := occurrences c s.

(** [list(s)]: the one-character strings of [s]. *)
Definition chars (s : str) : list str := map (λ c, [c]) s.

Fixpoint drop_while (p : char → bool) (s : str) : str :=
  match s with
  | [] => []
  | c :: s' => if p c then drop_while p s' else s
  end.

(** [collections.Counter(l)] as a dictionary of counts. *)
Definition Counter `{Countable K} (l : list K) : gmap K Q :=
  foldl (λ m k, <[k := default 0 (m !! k) + 1]> m) ∅ l.

(** [l[:k]] for an integer [k] of either sign. *)
Definition slice_to {A} (l : list A) (k : Z) : list A :=
  if decide (0 ≤ k)%Z then take (Z.to_nat k) l
  else take (Z.to_nat (Z.of_nat (length l) + k)) l.

Definition Qltb (x y : Q) : bool := negb (Qle_bool y x).

(** numpy true division: a zero divisor gives [inf] or [nan] (and a
    warning, not an exception); [None] stands for both. *)
Definition np_div (a b : Q) : option Q :=
  if Qeq_bool b 0 then None else Some (a / b).

(** [x < y] for a numpy value [x] with a non-negative numerator: [inf] and
    [nan] compare [False]. *)
Definition np_lt (x : option Q) (y : Q) : bool :=
  match x with
  | Some q => Qltb q y
  | None => false
  end.

(** The tables of the Unicode database that the code consults through
    [re] and [str] methods. *)
Class Unicode := {
  (** [\w] under the UNICODE flag *)
  isword : char → bool;
  (** the characters removed by [str.strip()] *)
  isspace : char → bool;
  (** [c.isdigit()] *)
  isdigit : char → bool;
  (** [s.lower()] *)
  lower : str → str;
  isspace_SPACE : isspace SPACE = true;
  isspace_not_word : ∀ c, isspace c = true → isword c = false
}.

Section Text.
Context `{Unicode}.

(** [s.strip()] *)
Definition strip (s : str) : str :=
  reverse (drop_while isspace (reverse (drop_while isspace s))).

(** [s.isdigit()]: non-empty and every character a digit. *)
Definition str_isdigit (s : str) : bool :=
  match s with
  | [] => false
  | _ => forallb isdigit s
  end.

(** The maximal runs of word characters of [s], left to right; [cur] is the
    run being read, reversed. *)
Fixpoint word_runs (cur : str) (s : str) : list str :=
  match s with
  | [] => match cur with [] => [] | _ => [reverse cur] end
  | c :: s' =>
      if isword c then word_runs (c :: cur) s'
      else match cur with
           | [] => word_runs [] s'
           | _ => reverse cur :: word_runs [] s'
           end
  end.

(** [re.compile(r"(?u)\b\w\w+\b").findall(s)]: between two word boundaries
    the greedy [\w\w+] takes a whole maximal run of word characters, and
    needs at least two of them. *)
Definition findall (s : str) : list str :=
  filter (λ w, (2 ≤ length w)%nat) (word_runs [] s).

End Text.

(* ================================================================== *)
(** * The detector *)
(* ================================================================== *)

(** [self.hyperparameters] once every option is present (see [__init__]
    below for how the dictionary is filled). *)
Record Hyperparameters := {
  token_prune_len : Z;
  num_keywords : Z;
  alpha : Q;
  max_iter : Z;
  merge_threshold : Q;
  deduplication : bool;
  stopwords : gset str
}.

(** [nx.DiGraph]: the nodes in insertion order and the weighted edges. *)
Record DiGraph := {
  nodes : list str;
  edges : gmap (str * str) Z
}.

Definition empty_graph : DiGraph := {| nodes := []; edges := ∅ |}.

Definition has_edge (G : DiGraph) (u v : str) : Prop :=
  is_Some (edges G !! (u, v)).

Definition add_node (ns : list str) (u : str) : list str :=
  if decide (u ∈ ns) then ns else ns ++ [u].

(** [G.add_edge(u, v, weight=w)] *)
Definition add_edge (G : DiGraph) (u v : str) (w : Z) : DiGraph :=
  {| nodes := add_node (add_node (nodes G) u) v;
     edges := <[(u, v) := w]> (edges G) |}.

(** [G[u][v]['weight'] += w] *)
Definition add_weight (G : DiGraph) (u v : str) (w : Z) : DiGraph :=
  {| nodes := nodes G;
     edges := alter (λ x, x + w)%Z (u, v) (edges G) |}.

(** [G.remove_edges_from(nx.selfloop_edges(G))]: the nodes stay. *)
Definition remove_selfloops (G : DiGraph) : DiGraph :=
  {| nodes := nodes G;
     edges := filter (λ e, e.1.1 ≠ e.1.2) (edges G) |}.

(** No edge from a node to itself. *)
Definition no_selfloops (G : DiGraph) : Prop :=
  map_Forall (λ e _, e.1 ≠ e.2) (edges G).

#[global] Instance no_selfloops_dec (G : DiGraph) : Decision (no_selfloops G).
Proof. unfold no_selfloops. apply _. Defined.

(** What the detector takes from outside: networkx's [pagerank] (its result
    as the list of [items()]) and the file system behind [open]. *)
Class External := {
  pagerank : DiGraph → Q → Z → gmap str Q → result (list (str * Q));
  read_text : str → result str
}.

(** The same collaborators, with a ranker that refuses a graph that has a
    self-loop. *)
Definition selfloop_free_only (E : External) : External :=
  {| pagerank := λ G a m p,
       if decide (no_selfloops G) then @pagerank E G a m p
       else Raise TypeError;
     read_text := @read_text E |}.

(** The [document] argument of [find_keywords] by its run-time type. *)
Inductive document :=
| DocStr (s : str)
| DocList (lines : list str)
| DocOther.

(** State of the loop of [merge_tokens]. *)
Record merge_state := {
  term_counts : gmap str Q;
  tmp_tokens : list str;
  merged : gset str
}.

Definition Qnat (n : nat) : Q := inject_Z (Z.of_nat n).

(** The index pairs [(i, i + 1)] with [i + 1 < len(l)]. *)
Definition adjacent {A} (l : list A) : list (A * A) := zip l (tail l).

(** [sorted(l, key=lambda x: x[1], reverse=True)]: stable, so [x], which
    stood before all of [l], goes before the first entry that is not
    greater. *)
Fixpoint insert_desc (x : str * Q) (l : list (str * Q)) : list (str * Q) :=
  match l with
  | [] => [x]
  | y :: l' => if Qle_bool y.2 x.2 then x :: l else y :: insert_desc x l'
  end.

Definition sorted_desc (l : list (str * Q)) : list (str * Q) :=
  foldr insert_desc [] l.

(** The order of the output: the score does not grow. *)
Definition score_ge (a b : str * Q) : Prop := b.2 <= a.2.

(** [d[k] = v] on a dictionary kept in insertion order. *)
Fixpoint dict_set (d : list (str * Q)) (k : str) (v : Q) : list (str * Q) :=
  match d with
  | [] => [(k, v)]
  | kv :: d' =>
      if decide (kv.1 = k) then (k, v) :: d' else kv :: dict_set d' k v
  end.

(** [dict(items)] *)
Definition dict (items : list (str * Q)) : list (str * Q) :=
  foldl (λ d kv, dict_set d kv.1 kv.2) [] items.

Section Detector.
Context `{Unicode} `{External}.
Variable hp : Hyperparameters.

(** ** [tokenize] *)

Definition space_factor (document : str) : Q :=
  let whitespace_count := count SPACE document in
  let full_tokens := findall document in
  if decide (0 < length full_tokens)%nat
  then Qnat whitespace_count / Qnat (length full_tokens)
  else 0.

Definition tokenize (document : str) : list str :=
  let full_tokens := findall document in
  if Qltb (space_factor document) (1 # 2) then
    let tokens :=
      filter (λ x, ¬ x = [SPACE] ∧ ¬ x = [NEWLINE] ∧ ¬ x = [FULLWIDTH_COMMA])
             (chars (strip document)) in
    filter (λ x, str_isdigit x = false ∧ SPACE ∉ x) tokens
  else
    filter (λ x, str_isdigit x = false) full_tokens.

(** What the character mode keeps of the stripped document. *)
Definition kept_char (c : char) : Prop :=
  c ≠ SPACE ∧ c ≠ NEWLINE ∧ c ≠ FULLWIDTH_COMMA ∧ isdigit c = false.

(** The character mode in the words of the specification: one token per
    character, excluding whitespace characters, the full-width comma and
    digits. To be compared with [tokenize]. *)
Definition spec_char_tokens (document : str) : list str :=
  chars (filter (λ c, isspace c = false ∧ c ≠ FULLWIDTH_COMMA ∧
                      isdigit c = false) document).

(** ** [compute_tf_scores], called without a document; the sorted list
    [sorted_terms_tf] it also stores is read by no later stage. *)

Definition compute_tf_scores (tokens : list str) : gmap str Q :=
  Counter tokens.

(** ** [merge_tokens] *)

(** The cohesion score of a pair. *)
Definition bgs (count1 count2 bgc : Q) : option Q :=
  np_div (Qabs (count1 - bgc) + Qabs (count2 - bgc)) (count1 + count2).

Definition to_add (token1 token2 : str) : str := token1 ++ py " " ++ token2.

(** The test that guards a merge, once neither token is a stopword. *)
Definition should_merge (count1 count2 bgc : Q) (token1 token2 : str)
    : Prop :=
  np_lt (bgs count1 count2 bgc) (merge_threshold hp) = true ∧
  (token_prune_len hp < Z.of_nat (length token2))%Z ∧
  (token_prune_len hp < Z.of_nat (length token1))%Z.

(** One iteration of the loop, on the pair [(tokens[enx], tokens[enx+1])]. *)
Definition merge_step (bigram_counts : gmap (str * str) Q)
    (st : merge_state) (pair : str * str) : result merge_state :=
  let token1 := pair.1 in
  let token2 := pair.2 in
  count1 ← getitem (term_counts st) token1;
  count2 ← getitem (term_counts st) token2;
  bgc ← getitem bigram_counts (token1, token2);
  if decide ((token1 ∉ stopwords hp) ∧ (token2 ∉ stopwords hp)) then
    if np_lt (bgs count1 count2 bgc) (merge_threshold hp) then
      if decide (token_prune_len hp < Z.of_nat (length token2) ∧
                 token_prune_len hp < Z.of_nat (length token1))%Z then
        let tc := <[(to_add token1 token2) := bgc]> (term_counts st) in
        c1 ← getitem tc token1;
        let tc := <[token1 := c1 * merge_threshold hp]> tc in
        c2 ← getitem tc token2;
        let tc := <[token2 := c2 * merge_threshold hp]> tc in
        Ok {| term_counts := tc;
              tmp_tokens := tmp_tokens st ++ [to_add token1 token2];
              merged := {[token2]} ∪ ({[token1]} ∪ merged st) |}
      else Ok st
    else Ok st
  else
    Ok {| term_counts := term_counts st;
          tmp_tokens := tmp_tokens st ++ [token1; token2];
          merged := merged st |}.

Fixpoint merge_loop (bigram_counts : gmap (str * str) Q)
    (st : merge_state) (pairs : list (str * str)) : result merge_state :=
  match pairs with
  | [] => Ok st
  | p :: ps => st' ← merge_step bigram_counts st p;
               merge_loop bigram_counts st' ps
  end.

(** The deduplication that ends [merge_tokens]. *)
Definition drop_merged (st : merge_state) : list str :=
  if deduplication hp then
    let to_drop : gset str :=
      list_to_set (filter (λ token, token ∈ merged st) (tmp_tokens st)) in
    filter (λ x, x ∉ to_drop) (tmp_tokens st)
  else tmp_tokens st.

(** Returns the new [self.tokens] and [self.term_counts]. *)
Definition merge_tokens (tokens : list str) (tc : gmap str Q)
    : result (list str * gmap str Q) :=
  let two_grams := adjacent tokens in
  let bigram_counts := Counter two_grams in
  st ← merge_loop bigram_counts
         {| term_counts := tc; tmp_tokens := []; merged := ∅ |}
         (adjacent tokens);
  Ok (drop_merged st, term_counts st).

(** ** [get_document_graph] *)

Definition add_adjacency (weight : Z) (G : DiGraph) (pair : str * str)
    : DiGraph :=
  let node_u := lower pair.1 in
  let node_v := lower pair.2 in
  if decide (has_edge G node_u node_v)
  then add_weight G node_u node_v weight
  else add_edge G node_u node_v weight.

(** [self.G] as it is after the self-loops are removed. *)
Definition document_graph (weight : Z) (tokens : list str) : DiGraph :=
  remove_selfloops (foldl (add_adjacency weight) empty_graph (adjacent tokens)).

(** [{a: self.term_counts[a] for a in self.tokens}] *)
Fixpoint personalization_from (tc : gmap str Q) (tokens : list str)
    (acc : gmap str Q) : result (gmap str Q) :=
  match tokens with
  | [] => Ok acc
  | a :: rest => v ← getitem tc a; personalization_from tc rest (<[a := v]> acc)
  end.

(** The ranks before they are scaled by the token length. *)
Definition base_ranks (G : DiGraph) (personalization : gmap str Q)
    : result (list (str * Q)) :=
  if decide (num_keywords hp < Z.of_nat (length (nodes G)))%Z
  then pagerank G (alpha hp) (max_iter hp) personalization
  else Ok (map (λ k, (k, 1)) (nodes G)).

Definition scale_by_length (node_ranks : list (str * Q)) : list (str * Q) :=
  let token_list := map fst node_ranks in
  let rank_distribution := map snd node_ranks in
  let token_length_distribution := map (λ xy, Qnat (length xy.1)) node_ranks in
  let final_scores := zip_with Qmult rank_distribution token_length_distribution in
  dict (zip token_list final_scores).

(** Returns [self.G] and [self.node_ranks]. *)
Definition get_document_graph (tokens : list str) (tc : gmap str Q)
    : result (DiGraph * list (str * Q)) :=
  let G := document_graph 1 tokens in
  personalization ← personalization_from tc tokens ∅;
  node_ranks ← base_ranks G personalization;
  Ok (G, scale_by_length node_ranks).

(** ** [parse_input] *)

Definition parse_input (doc : document) (input_type : str)
    : result (list str) :=
  if decide (input_type = py "file") then
    match doc with
    | DocStr path => content ← read_text path; Ok (split NEWLINE content)
    | _ => Raise TypeError
    end
  else if decide (input_type = py "string") then
    match doc with
    | DocList lines => Ok lines
    | DocStr s => Ok (split NEWLINE s)
    | DocOther => Raise UnboundLocalError
    end
  else Raise UnboundLocalError.

(** A document of input type "string" that holds nothing but white space
    (the empty one included). *)
Definition whitespace_only (doc : document) : Prop :=
  match doc with
  | DocStr s => Forall (λ c, isspace c = true) s
  | DocList lines => Forall (Forall (λ c, isspace c = true)) lines
  | DocOther => False
  end.

(** ** [combine_keywords] *)

Definition combine_step (st : list (str * Q) * gset str) (item : str * Q)
    : list (str * Q) * gset str :=
  let combined_keywords := st.1 in
  let appeared_tokens := st.2 in
  let ranked_node := item.1 in
  let score := item.2 in
  if decide (lower ranked_node ∈ stopwords hp ∨ (length ranked_node ≤ 2)%nat)
  then st
  else
    (if decide (ranked_node ∉ appeared_tokens)
     then combined_keywords ++ [(ranked_node, score)]
     else combined_keywords,
     {[ranked_node]} ∪ appeared_tokens).

Definition combine_keywords (node_ranks : list (str * Q)) : list (str * Q) :=
  sorted_desc (foldl combine_step ([], ∅) node_ranks).1.

(** ** [find_keywords] *)

Definition find_keywords (doc : document) (input_type : str)
    : result (list (str * Q)) :=
  lines ← parse_input doc input_type;
  let document := join (py " ") lines in
  let tokens := tokenize document in
  let tc := compute_tf_scores tokens in
  merged_out ← merge_tokens tokens tc;
  ranked ← get_document_graph merged_out.1 merged_out.2;
  let final_keywords := combine_keywords ranked.2 in
  Ok (slice_to final_keywords (num_keywords hp)).

(** The exceptions that [find_keywords] lets through: those of reading the
    input and those of the ranker. *)
Definition raised_outside (doc : document) (input_type : str) (e : exn)
    : Prop :=
  parse_input doc input_type = Raise e ∨
  ∃ G personalization,
    pagerank G (alpha hp) (max_iter hp) personalization = Raise e.

End Detector.

(* ================================================================== *)
(** * Concrete collaborators, for running the model *)
(* ================================================================== *)

(** The Unicode tables on the ASCII range: Python's answers for the
    characters below 128; no character above counts as a word character, a
    space or a digit, and [lower] leaves it alone. *)
Definition between (lo hi c : N) : bool := ((lo <=? c) && (c <=? hi))%N.

Definition ascii_isword (c : char) : bool :=
  between 48 57 c || between 65 90 c || (c =? 95)%N || between 97 122 c.

Definition ascii_isspace (c : char) : bool :=
  between 9 13 c || between 28 32 c.

Definition ascii_isdigit (c : char) : bool := between 48 57 c.

Definition ascii_lower (s : str) : str :=
  map (λ c, if between 65 90 c then (c + 32)%N else c) s.

Lemma ascii_isspace_SPACE : ascii_isspace SPACE = true.
Proof. reflexivity. Qed.

Lemma ascii_isspace_not_word c :
  ascii_isspace c = true → ascii_isword c = false.
Proof.
  unfold ascii_isspace, ascii_isword, between.
  rewrite !orb_true_iff, !andb_true_iff, !N.leb_le.
  intros Hc.
  repeat (apply orb_false_intro);
    rewrite ?andb_false_iff, ?N.leb_gt, ?N.eqb_neq; lia.
Qed.

Definition ascii_unicode : Unicode :=
  {| isword := ascii_isword;
     isspace := ascii_isspace;
     isdigit := ascii_isdigit;
     lower := ascii_lower;
     isspace_SPACE := ascii_isspace_SPACE;
     isspace_not_word := ascii_isspace_not_word |}.

(** The document "a<TAB>b". *)
Definition tab_document : str := [97; 9; 98]%N.

(** A token sequence in which every adjacent pair has cohesion 0.5. *)
Definition loose_tokens : list str :=
  [py "alpha"; py "beta"; py "alpha"; py "gamma"; py "alpha"; py "delta"].

(** A token sequence in which "new york" is a fixed compound. *)
Definition york_tokens : list str :=
  [py "new"; py "york"; py "is"; py "new"; py "york"].

(** A short document: its graph has fewer nodes than [num_keywords]. *)
Definition short_document : str := py "new york is great. new york is big.".

(** A world with no files, and a ranker that answers with the uniform start
    vector of the power iteration. *)
Definition start_vector (G : DiGraph) : list (str * Q) :=
  map (λ n, (n, 1 / Qnat (length (nodes G)))) (nodes G).

Definition closed_world : External :=
  {| pagerank := λ G _ _ _, Ok (start_vector G);
     read_text := λ _, Raise OSError |}.

(** A world whose ranker never converges. *)
Definition diverging_world : External :=
  {| pagerank := λ _ _ _ _, Raise PowerIterationFailedConvergence;
     read_text := λ _, Raise OSError |}.

(** The defaults of [__init__], with a stopword set given by the caller. *)
Definition default_hp (sw : gset str) : Hyperparameters :=
  {| token_prune_len := 1;
     num_keywords := 10;
     alpha := 1 # 10;
     max_iter := 100;
     merge_threshold := 1 # 2;
     deduplication := true;
     stopwords := sw |}.

(* ================================================================== *)
(** * [__init__] and the dictionary it fills *)
(* ================================================================== *)

(** The values stored under the option names. *)
Inductive value :=
| VInt (z : Z)
| VFloat (q : Q)
| VBool (b : bool)
| VSet (s : gset str).

(** Dictionaries are objects: a variable holds a reference into the heap. *)
Definition loc := nat.

Record heap := {
  objects : gmap loc (gmap string value)
}.

(** The class object: [__init__.__defaults__] holds the dictionary that the
    expression [{}] of the signature produced when the [def] was run. *)
Record detector_class := {
  default_hyperparameters : loc
}.

(** An instance; [self.pattern] is constant and lives in [findall]. *)
Record detector := {
  verbose : bool;
  hyperparameters : loc
}.

(** Running the [class] statement: the default dictionary is made once. *)
Definition define_class (h : heap) : heap * detector_class :=
  let l := fresh (dom (objects h)) in
  ({| objects := <[l := ∅]> (objects h) |}, {| default_hyperparameters := l |}).

(** [k in d] for the dictionary at [l]. *)
Definition contains (h : heap) (l : loc) (k : string) : bool :=
  match objects h !! l with
  | Some d => bool_decide (is_Some (d !! k))
  | None => false
  end.

(** [d[k] = v] for the dictionary at [l]. *)
Definition store (h : heap) (l : loc) (k : string) (v : value) : heap :=
  {| objects := alter (λ d, <[k := v]> d) l (objects h) |}.

(** [d[k]] for the dictionary at [l]. *)
Definition load (h : heap) (l : loc) (k : string) : option value :=
  d ← objects h !! l; d !! k.

(** [if k not in self.hyperparameters: self.hyperparameters[k] = v] *)
Definition init_option (l : loc) (k : string) (v : value) (h : heap) : heap :=
  if contains h l k then h else store h l k v.

(** The option names with their defaults, in the order of [__init__]. *)
Definition option_defaults (stopwords_generic : gset str)
    : list (string * value) :=
  [ ("token_prune_len"%string, VInt 1);
    ("num_keywords"%string, VInt 10);
    ("alpha"%string, VFloat (1 # 10));
    ("max_iter"%string, VInt 100);
    ("merge_threshold"%string, VFloat (1 # 2));
    ("deduplication"%string, VBool true);
    ("stopwords"%string, VSet stopwords_generic) ].

(** [RakunKeyphraseDetector(hyperparameters, verbose)]; [None] for the
    argument means that the caller left it out. [stopwords_generic] is the
    content of the packaged [stopwords.json]. *)
Definition init (stopwords_generic : gset str) (cls : detector_class)
    (h : heap) (arg : option loc) (verbose : bool) : heap * detector :=
  let l := default (default_hyperparameters cls) arg in
  (foldl (λ h kv, init_option l kv.1 kv.2 h) h
         (option_defaults stopwords_generic),
   {| verbose := verbose; hyperparameters := l |}).

(** What [__init__] leaves in a dictionary that held [d]: each option, in
    turn, is set unless present. *)
Definition setdefault (d : gmap string value) (kv : string * value)
    : gmap string value :=
  match d !! kv.1 with
  | Some _ => d
  | None => <[kv.1 := kv.2]> d
  end.

Definition fill_defaults (stopwords_generic : gset str)
    (d : gmap string value) : gmap string value :=
  foldl setdefault d (option_defaults stopwords_generic).

(** Reading the filled dictionary as the record the pipeline uses. *)
Definition read_hyperparameters (d : gmap string value)
    : option Hyperparameters :=
  match d !! "token_prune_len"%string, d !! "num_keywords"%string,
        d !! "alpha"%string, d !! "max_iter"%string,
        d !! "merge_threshold"%string, d !! "deduplication"%string,
        d !! "stopwords"%string with
  | Some (VInt tpl), Some (VInt nk), Some (VFloat a), Some (VInt mi),
    Some (VFloat mt), Some (VBool dd), Some (VSet sw) =>
      Some {| token_prune_len := tpl; num_keywords := nk; alpha := a;
              max_iter := mi; merge_threshold := mt; deduplication := dd;
              stopwords := sw |}
  | _, _, _, _, _, _, _ => None
  end.

(* ================================================================== *)
(** * The rest of [compute_tf_scores] *)
(* ================================================================== *)

(** [d.get(k)] on a dictionary kept in insertion order. *)
Fixpoint dict_get (d : list (str * Q)) (k : str) : option Q :=
  match d with
  | [] => None
  | kv :: d' => if decide (kv.1 = k) then Some kv.2 else dict_get d' k
  end.

(** [term_counter.update({term: 1})] *)
Definition counter_update (d : list (str * Q)) (term : str)
    : list (str * Q) :=
  dict_set d term (default 0 (dict_get d term) + 1).

(** [term_counter] after the loop over the tokens, as [items()] lists it:
    a key enters at its first occurrence. *)
Definition term_counter (tokens : list str) : list (str * Q) :=
  foldl counter_update [] tokens.

(** [self.sorted_terms_tf] *)
Definition sorted_terms_tf (tokens : list str) : list (str * Q) :=
  sorted_desc (term_counter tokens).

(** [compute_tf_scores(document)] in full: the new [self.tokens],
    [self.term_counts] and [self.sorted_terms_tf]. With a document, the
    tokens are the word-pattern matches; without, they are the ones that
    the detector holds. *)
Definition compute_tf_scores_full `{Unicode} (document : option str)
    (tokens : list str) : list str * gmap str Q * list (str * Q) :=
  let tokens :=
    match document with
    | Some d => findall d
    | None => tokens
    end in
  (tokens, Counter tokens, sorted_terms_tf tokens).

#[global] Instance Qeq_decision (x y : Q) : Decision (x == y) := Qeq_dec x y.

(** What a pair contributes when it cannot be merged: both tokens when one
    is a stopword, nothing otherwise. *)
Definition passed_through (hp : Hyperparameters) (pair : str * str)
    : list str :=
  if decide (pair.1 ∈ stopwords hp ∨ pair.2 ∈ stopwords hp)
  then [pair.1; pair.2] else [].

(** Where a token of the merged sequence can come from: a pair with a
    stopword gives its two tokens, a pair without gives its compound. *)
Definition from_pair (hp : Hyperparameters) (p : str * str) (x : str)
    : Prop :=
  ((p.1 ∈ stopwords hp ∨ p.2 ∈ stopwords hp) ∧ (x = p.1 ∨ x = p.2)) ∨
  ((p.1 ∉ stopwords hp) ∧ (p.2 ∉ stopwords hp) ∧
   (token_prune_len hp < Z.of_nat (length p.1))%Z ∧
   (token_prune_len hp < Z.of_nat (length p.2))%Z ∧
   x = to_add p.1 p.2).

(** The adjacent pairs of the tokens, lowercased as [get_document_graph]
    reads them. *)
Definition lowered_pairs `{Unicode} (tokens : list str) : list (str * str) :=
  map (λ p, (lower p.1, lower p.2)) (adjacent tokens).

(** The test that [combine_keywords] makes a rank entry pass. *)
Definition keeps `{Unicode} (hp : Hyperparameters) (item : str * Q) : Prop :=
  ¬ (lower item.1 ∈ stopwords hp ∨ (length item.1 ≤ 2)%nat).

(** [s.replace("\n", " ")] *)
Definition newlines_to_spaces (s : str) : str :=
  map (λ c, if decide (c = NEWLINE) then SPACE else c) s.

(* ================================================================== *)
(** * Properties *)
(* ================================================================== *)

(** ** Numbers and the exception monad *)

(** Closed decidable goals, by evaluation. *)
Ltac by_decide :=
  match goal with
  | |- ?P => apply (@bool_decide_unpack P _); vm_compute; exact I
  end.

Lemma Qltb_lt (x y : Q) : Qltb x y = true ↔ x < y.
Proof.
  unfold Qltb. rewrite negb_true_iff, <- not_true_iff_false, Qle_bool_iff.
  split; [apply Qnot_le_lt | apply Qlt_not_le].
Qed.

Lemma Qltb_ge (x y : Q) : Qltb x y = false ↔ y <= x.
Proof.
  unfold Qltb. rewrite negb_false_iff. apply Qle_bool_iff.
Qed.

Lemma bind_Ok {A B} (f : A → result B) (m : result A) (b : B) :
  m ≫= f = Ok b ↔ ∃ a, m = Ok a ∧ f a = Ok b.
Proof.
  destruct m as [a|e]; simpl; split.
  - eauto.
  - by intros (a' & [= ->] & ?).
  - done.
  - by intros (a' & ? & ?).
Qed.

Lemma bind_Raise {A B} (f : A → result B) (m : result A) (e : exn) :
  m ≫= f = Raise e ↔ m = Raise e ∨ ∃ a, m = Ok a ∧ f a = Raise e.
Proof.
  destruct m as [a|e']; simpl; split.
  - eauto.
  - by intros [?|(a' & [= ->] & ?)].
  - intros [= ->]. by left.
  - by intros [[= ->]|(a' & ? & ?)].
Qed.

Lemma getitem_Some `{Countable K} {V} (d : gmap K V) (k : K) (v : V) :
  d !! k = Some v → getitem d k = Ok v.
Proof. unfold getitem. by intros ->. Qed.

Lemma getitem_Ok `{Countable K} {V} (d : gmap K V) (k : K) (v : V) :
  getitem d k = Ok v ↔ d !! k = Some v.
Proof. unfold getitem. destruct (d !! k); naive_solver. Qed.

(** ** The tokenizer *)

Section Tokenizer.
Context `{Unicode}.

Lemma char_mode_filters (s : str) :
  filter (λ x, str_isdigit x = false ∧ SPACE ∉ x)
    (filter (λ x, ¬ x = [SPACE] ∧ ¬ x = [NEWLINE] ∧ ¬ x = [FULLWIDTH_COMMA])
       (chars s))
  = chars (filter kept_char s).
Proof.
  induction s as [|c s IH]; [done|].
  unfold chars in *. cbn [map].
  destruct (decide (kept_char c)) as [Hk|Hk].
  - rewrite (filter_cons_True kept_char) by done.
    destruct Hk as (H1 & H2 & H3 & H4).
    rewrite filter_cons_True by (split_and!; congruence).
    rewrite filter_cons_True.
    + cbn [map]. f_equal. apply IH.
    + split; [simpl; by rewrite H4 | by rewrite list_elem_of_singleton].
  - rewrite (filter_cons_False kept_char) by done.
    rewrite filter_cons. case_decide as Hc; [|apply IH].
    rewrite filter_cons_False; [apply IH|].
    intros [Hd Hs]. apply Hk. destruct Hc as (H1 & H2 & H3).
    split_and!; try congruence.
    simpl in Hd. by rewrite andb_true_r in Hd.
Qed.

(** C5, as the code has it. [space_factor] is the number of spaces over the
    number of word-pattern matches (0 when there is no match). From 0.5 on,
    the tokens are the matches that are not digit-only; below 0.5, they are
    the characters of the stripped document, one token each, without the
    space, the newline, the full-width comma and the digits. Other white
    space inside the document (a tab, say) stays as a token. The empty
    document has factor 0 and no token. *)
Theorem tokenize_modes (document : str) :
  (space_factor document =
     if decide (0 < length (findall document))%nat
     then Qnat (count SPACE document) / Qnat (length (findall document))
     else 0) ∧
  (1 # 2 <= space_factor document →
     tokenize document =
       filter (λ w, str_isdigit w = false) (findall document)) ∧
  (space_factor document < 1 # 2 →
     tokenize document = chars (filter kept_char (strip document))) ∧
  space_factor [] = 0 ∧ tokenize [] = [].
Proof.
  split_and!.
  - done.
  - intros Hge. unfold tokenize.
    apply Qltb_ge in Hge. by rewrite Hge.
  - intros Hlt. unfold tokenize.
    apply Qltb_lt in Hlt. rewrite Hlt. apply char_mode_filters.
  - done.
  - done.
Qed.

End Tokenizer.

(** C5 as stated fails: a tab inside a document of the character mode is a
    whitespace character, and it is emitted. *)
Lemma tokenize_keeps_tab :
  @space_factor ascii_unicode tab_document < 1 # 2 ∧
  @isspace ascii_unicode 9%N = true ∧
  @tokenize ascii_unicode tab_document = [[97]; [9]; [98]]%N ∧
  @tokenize ascii_unicode tab_document
    ≠ @spec_char_tokens ascii_unicode tab_document.
Proof. split_and!; [by vm_compute | done | by vm_compute | by vm_compute]. Qed.

Lemma tokenize_modes_witness :
  @tokenize ascii_unicode (py "new york 42")
    = [py "new"; py "york"] ∧
  @tokenize ascii_unicode tab_document = [[97]; [9]; [98]]%N.
Proof.
  split.
  - etransitivity;
      [apply (proj1 (proj2 (@tokenize_modes ascii_unicode (py "new york 42"))));
       by vm_compute | by vm_compute].
  - etransitivity;
      [apply (proj1 (proj2 (proj2 (@tokenize_modes ascii_unicode tab_document))));
       by vm_compute | by vm_compute].
Defined.

(** ** Counters *)

Lemma Qnat_succ (n : nat) : Qnat n + 1 = Qnat (S n).
Proof.
  unfold Qnat, inject_Z, Qplus. cbn [Qnum Qden].
  f_equal. lia.
Qed.

Lemma Counter_snoc `{Countable K} (l : list K) (k : K) :
  Counter (l ++ [k]) = <[k := default 0 (Counter l !! k) + 1]> (Counter l).
Proof. unfold Counter. by rewrite foldl_app. Qed.

Lemma occurrences_snoc `{EqDecision A} (x y : A) (l : list A) :
  occurrences x (l ++ [y]) =
    if decide (y = x) then S (occurrences x l) else occurrences x l.
Proof.
  unfold occurrences. rewrite filter_app, length_app, filter_cons, filter_nil.
  case_decide; simpl; lia.
Qed.

Lemma occurrences_pos `{EqDecision A} (x : A) (l : list A) :
  (0 < occurrences x l)%nat ↔ x ∈ l.
Proof.
  unfold occurrences. induction l as [|y l IH].
  - simpl. rewrite elem_of_nil. lia.
  - rewrite filter_cons, elem_of_cons. case_decide; simpl; naive_solver lia.
Qed.

(** A counter holds, for each element of the list, how often it occurs. *)
Lemma Counter_lookup `{Countable K} (l : list K) (k : K) :
  Counter l !! k =
    if decide (k ∈ l) then Some (Qnat (occurrences k l)) else None.
Proof.
  induction l as [|x l IH] using rev_ind.
  - rewrite decide_False by apply not_elem_of_nil. done.
  - rewrite Counter_snoc, occurrences_snoc.
    destruct (decide (x = k)) as [->|Hne].
    + rewrite lookup_insert_eq, IH.
      rewrite (decide_True (P := k ∈ l ++ [k])) by set_solver.
      case_decide as Hin.
      * simpl. by rewrite Qnat_succ.
      * simpl. f_equal.
        assert (occurrences k l = 0%nat) as ->; [|done].
        apply (not_iff_compat (occurrences_pos k l)) in Hin. lia.
    + rewrite lookup_insert_ne by done. rewrite IH.
      destruct (decide (k ∈ l)).
      * rewrite decide_True by set_solver. done.
      * rewrite decide_False by set_solver. done.
Qed.

Lemma Counter_elem `{Countable K} (l : list K) (k : K) :
  k ∈ l → Counter l !! k = Some (Qnat (occurrences k l)).
Proof. intros Hin. by rewrite Counter_lookup, decide_True. Qed.

Lemma adjacent_elem {A} (l : list A) (x y : A) :
  (x, y) ∈ adjacent l → x ∈ l ∧ y ∈ l.
Proof.
  unfold adjacent. intros Hin.
  split.
  - eapply elem_of_zip_l, Hin.
  - apply elem_of_zip_r in Hin. destruct l; [done|]. set_solver.
Qed.

(** ** The token merger *)

Section Merger.
Variable hp : Hyperparameters.

Lemma np_lt_bgs (count1 count2 bgc : Q) :
  np_lt (bgs count1 count2 bgc) (merge_threshold hp) = true ↔
  ¬ count1 + count2 == 0 ∧
  (Qabs (count1 - bgc) + Qabs (count2 - bgc)) / (count1 + count2)
    < merge_threshold hp.
Proof.
  unfold bgs, np_div.
  destruct (Qeq_bool (count1 + count2) 0) eqn:Hz; simpl.
  - apply Qeq_bool_iff in Hz. naive_solver.
  - rewrite Qltb_lt. split; [|naive_solver].
    intros Hlt. split; [|done].
    intros Hz'. apply Qeq_bool_iff in Hz'. congruence.
Qed.

Lemma to_add_length (token1 token2 : str) :
  length (to_add token1 token2) = S (length token1 + length token2).
Proof. unfold to_add. rewrite !length_app. simpl. lia. Qed.

Lemma to_add_neq_l (token1 token2 : str) : to_add token1 token2 ≠ token1.
Proof.
  intros Heq. apply (f_equal length) in Heq.
  rewrite to_add_length in Heq. lia.
Qed.

Lemma to_add_neq_r (token1 token2 : str) : to_add token1 token2 ≠ token2.
Proof.
  intros Heq. apply (f_equal length) in Heq.
  rewrite to_add_length in Heq. lia.
Qed.

(** The three outcomes of an iteration whose look-ups succeed. *)
Lemma merge_step_stopword bc st token1 token2 count1 count2 bgc :
  term_counts st !! token1 = Some count1 →
  term_counts st !! token2 = Some count2 →
  bc !! (token1, token2) = Some bgc →
  token1 ∈ stopwords hp ∨ token2 ∈ stopwords hp →
  merge_step hp bc st (token1, token2) =
    Ok {| term_counts := term_counts st;
          tmp_tokens := tmp_tokens st ++ [token1; token2];
          merged := merged st |}.
Proof.
  intros H1 H2 Hb Hsw. unfold merge_step. cbn [fst snd].
  rewrite (getitem_Some _ _ _ H1), (getitem_Some _ _ _ H2),
    (getitem_Some _ _ _ Hb). simpl.
  rewrite decide_False; [done|]. naive_solver.
Qed.

Lemma merge_step_skip bc st token1 token2 count1 count2 bgc :
  term_counts st !! token1 = Some count1 →
  term_counts st !! token2 = Some count2 →
  bc !! (token1, token2) = Some bgc →
  token1 ∉ stopwords hp → token2 ∉ stopwords hp →
  ¬ should_merge hp count1 count2 bgc token1 token2 →
  merge_step hp bc st (token1, token2) = Ok st.
Proof.
  intros H1 H2 Hb Hs1 Hs2 Hno. unfold merge_step. cbn [fst snd].
  rewrite (getitem_Some _ _ _ H1), (getitem_Some _ _ _ H2),
    (getitem_Some _ _ _ Hb). simpl.
  rewrite decide_True by done.
  destruct (np_lt _ _) eqn:Hlt; [|done].
  rewrite decide_False; [done|].
  intros [Hl2 Hl1]. apply Hno. by split_and!.
Qed.

Lemma merge_step_merge bc st token1 token2 count1 count2 bgc :
  term_counts st !! token1 = Some count1 →
  term_counts st !! token2 = Some count2 →
  bc !! (token1, token2) = Some bgc →
  token1 ∉ stopwords hp → token2 ∉ stopwords hp →
  should_merge hp count1 count2 bgc token1 token2 →
  ∃ c2,
    <[token1 := count1 * merge_threshold hp]>
      (<[to_add token1 token2 := bgc]> (term_counts st)) !! token2 = Some c2 ∧
    merge_step hp bc st (token1, token2) =
      Ok {| term_counts :=
              <[token2 := c2 * merge_threshold hp]>
                (<[token1 := count1 * merge_threshold hp]>
                   (<[to_add token1 token2 := bgc]> (term_counts st)));
            tmp_tokens := tmp_tokens st ++ [to_add token1 token2];
            merged := {[token2]} ∪ ({[token1]} ∪ merged st) |}.
Proof.
  intros H1 H2 Hb Hs1 Hs2 (Hlt & Hl2 & Hl1). unfold merge_step. cbn [fst snd].
  rewrite (getitem_Some _ _ _ H1), (getitem_Some _ _ _ H2),
    (getitem_Some _ _ _ Hb). simpl.
  rewrite decide_True by done. rewrite Hlt.
  rewrite decide_True by done.
  assert (<[to_add token1 token2 := bgc]> (term_counts st) !! token1
          = Some count1) as Hc1.
  { rewrite lookup_insert_ne; [done|apply to_add_neq_l]. }
  rewrite (getitem_Some _ _ _ Hc1). simpl.
  assert (is_Some (<[token1 := count1 * merge_threshold hp]>
      (<[to_add token1 token2 := bgc]> (term_counts st)) !! token2))
    as [c2 Hc2].
  { destruct (decide (token1 = token2)) as [->|Hne].
    - rewrite lookup_insert_eq. eauto.
    - rewrite lookup_insert_ne by done.
      rewrite lookup_insert_ne by apply to_add_neq_r. eauto. }
  exists c2. split; [done|].
  by rewrite (getitem_Some _ _ _ Hc2).
Qed.

(** C1, as the code has it. A pair that is not merged leaves the term
    counts and the set of merged tokens as they were. When neither token is
    a stopword and the merge conditions fail, the pair emits nothing; the two
    tokens are passed through unmerged only when one of them is a
    stopword. *)
Theorem merge_step_without_merge bc st token1 token2 count1 count2 bgc :
  term_counts st !! token1 = Some count1 →
  term_counts st !! token2 = Some count2 →
  bc !! (token1, token2) = Some bgc →
  (token1 ∉ stopwords hp → token2 ∉ stopwords hp →
   ¬ should_merge hp count1 count2 bgc token1 token2 →
   merge_step hp bc st (token1, token2) = Ok st) ∧
  (token1 ∈ stopwords hp ∨ token2 ∈ stopwords hp →
   merge_step hp bc st (token1, token2) =
     Ok {| term_counts := term_counts st;
           tmp_tokens := tmp_tokens st ++ [token1; token2];
           merged := merged st |}).
Proof.
  intros H1 H2 Hb. split.
  - intros. by eapply merge_step_skip.
  - intros. by eapply merge_step_stopword.
Qed.


End Merger.

(** C1 as stated fails: with the default options and no stopword, every
    pair of [loose_tokens] has cohesion 0.5, which is not below the
    threshold; no pair emits anything, and the merged sequence is empty. *)
Lemma merge_tokens_drops_unmerged :
  let hp := default_hp ∅ in
  let tc := compute_tf_scores loose_tokens in
  let st := {| term_counts := tc; tmp_tokens := []; merged := ∅ |} in
  (py "alpha", py "beta") ∈ adjacent loose_tokens ∧
  (py "alpha" ∉ stopwords hp) ∧ (py "beta" ∉ stopwords hp) ∧
  tc !! py "alpha" = Some 3 ∧ tc !! py "beta" = Some 1 ∧
  Counter (adjacent loose_tokens) !! (py "alpha", py "beta") = Some 1 ∧
  np_lt (bgs 3 1 1) (merge_threshold hp) = false ∧
  (tmp_tokens <$> merge_step hp (Counter (adjacent loose_tokens)) st
                    (py "alpha", py "beta")) = Ok [] ∧
  (fst <$> merge_tokens hp loose_tokens tc) = Ok [].
Proof.
  split_and!; first [by vm_compute | by_decide].
Qed.

Lemma merge_step_without_merge_witness :
  let hp := default_hp {[py "is"]} in
  let tc := compute_tf_scores york_tokens in
  let st := {| term_counts := tc; tmp_tokens := []; merged := ∅ |} in
  merge_step hp (Counter (adjacent york_tokens)) st (py "york", py "is") =
    Ok {| term_counts := tc; tmp_tokens := [py "york"; py "is"];
          merged := ∅ |}.
Proof.
  intros hp tc st.
  apply (proj2 (merge_step_without_merge hp (Counter (adjacent york_tokens))
                  st (py "york") (py "is") 2 1 1
                  ltac:(by vm_compute) ltac:(by vm_compute)
                  ltac:(by vm_compute))).
  right. by_decide.
Defined.


(** ** The merger raises nothing *)

Section MergerTotal.
Variable hp : Hyperparameters.

Lemma merge_step_total bc st p :
  is_Some (term_counts st !! p.1) →
  is_Some (term_counts st !! p.2) →
  is_Some (bc !! p) →
  ∃ st', merge_step hp bc st p = Ok st' ∧
    (∀ k, is_Some (term_counts st !! k) → is_Some (term_counts st' !! k)) ∧
    (∀ x, x ∈ tmp_tokens st' →
          x ∈ tmp_tokens st ∨ is_Some (term_counts st' !! x)).
Proof.
  destruct p as [token1 token2]. cbn [fst snd].
  intros [count1 H1] [count2 H2] [bgc Hb].
  destruct (decide (token1 ∈ stopwords hp ∨ token2 ∈ stopwords hp))
    as [Hsw|Hsw].
  { eexists. split; [by eapply merge_step_stopword|]. cbn.
    split; [done|]. intros x.
    rewrite elem_of_app, !elem_of_cons, elem_of_nil.
    intros [?|[->|[->|[]]]]; eauto. }
  assert ((token1 ∉ stopwords hp) ∧ (token2 ∉ stopwords hp)) as [Hs1 Hs2]
    by (split; intros ?; apply Hsw; auto).
  destruct (decide (should_merge hp count1 count2 bgc token1 token2))
    as [Hm|Hm].
  - destruct (merge_step_merge hp bc st token1 token2 count1 count2 bgc
                H1 H2 Hb Hs1 Hs2 Hm) as (c2 & Hc2 & Hstep).
    eexists. split; [exact Hstep|]. cbn. split.
    + intros k Hk. rewrite !lookup_insert_is_Some'. auto.
    + intros x. rewrite elem_of_app, list_elem_of_singleton.
      intros [? | ->]; [by left | right].
      rewrite !lookup_insert_is_Some'. auto.
  - eexists. split; [by eapply merge_step_skip|]. auto.
Qed.

Lemma merge_loop_total bc pairs : ∀ st,
  (∀ p, p ∈ pairs →
        is_Some (term_counts st !! p.1) ∧ is_Some (term_counts st !! p.2) ∧
        is_Some (bc !! p)) →
  (∀ x, x ∈ tmp_tokens st → is_Some (term_counts st !! x)) →
  ∃ st', merge_loop hp bc st pairs = Ok st' ∧
    (∀ x, x ∈ tmp_tokens st' → is_Some (term_counts st' !! x)).
Proof.
  induction pairs as [|p pairs IH]; intros st Hpairs Htmp.
  - exists st. by split.
  - destruct (Hpairs p ltac:(by left)) as (Hp1 & Hp2 & Hpb).
    destruct (merge_step_total bc st p Hp1 Hp2 Hpb)
      as (st1 & Hstep & Hmono & Hnew).
    destruct (IH st1) as (st' & Hloop & Hinv).
    + intros q Hq. destruct (Hpairs q ltac:(by right)) as (Hq1 & Hq2 & Hqb).
      auto.
    + intros x Hx. destruct (Hnew x Hx); auto.
    + exists st'. split; [|done].
      cbn [merge_loop]. by rewrite Hstep.
Qed.

Lemma drop_merged_subseteq st x : x ∈ drop_merged hp st → x ∈ tmp_tokens st.
Proof.
  unfold drop_merged. destruct (deduplication hp); [|done].
  rewrite list_elem_of_filter. tauto.
Qed.

(** Every token that leaves the merger has a term count. *)
Lemma merge_tokens_total (tokens : list str) :
  ∃ out, merge_tokens hp tokens (compute_tf_scores tokens) = Ok out ∧
    ∀ x, x ∈ out.1 → is_Some (out.2 !! x).
Proof.
  unfold merge_tokens.
  destruct (merge_loop_total (Counter (adjacent tokens)) (adjacent tokens)
              {| term_counts := compute_tf_scores tokens;
                 tmp_tokens := []; merged := ∅ |})
    as (st' & Hloop & Hinv).
  - intros [t1 t2] Hp. cbn [term_counts fst snd].
    destruct (adjacent_elem _ _ _ Hp) as [Ht1 Ht2].
    unfold compute_tf_scores. rewrite !Counter_elem by done. eauto.
  - cbn. intros x Hx. by apply elem_of_nil in Hx.
  - rewrite Hloop. eexists. split; [done|]. cbn.
    intros x Hx. apply Hinv. by eapply drop_merged_subseteq.
Qed.

Lemma personalization_from_total tc tokens : ∀ acc,
  (∀ x, x ∈ tokens → is_Some (tc !! x)) →
  ∃ pers, personalization_from tc tokens acc = Ok pers.
Proof.
  induction tokens as [|a tokens IH]; intros acc Hin.
  - by exists acc.
  - destruct (Hin a ltac:(by left)) as [v Hv].
    cbn [personalization_from]. rewrite (getitem_Some _ _ _ Hv). cbn.
    apply IH. intros x Hx. apply Hin. by right.
Qed.

End MergerTotal.

(** ** The graph *)

Section Graph.
Context `{U : Unicode} `{E : External}.
Variable hp : Hyperparameters.

Lemma remove_selfloops_ok (G : DiGraph) : no_selfloops (remove_selfloops G).
Proof.
  intros e w Hew. unfold remove_selfloops in Hew. cbn in Hew.
  by apply map_lookup_filter_Some in Hew as [_ Hne].
Qed.

Lemma no_selfloops_has_edge (G : DiGraph) :
  no_selfloops G ↔ ∀ u, ¬ has_edge G u u.
Proof.
  unfold no_selfloops, has_edge. split.
  - intros Hall u [w Hw]. by apply (Hall (u, u) w Hw).
  - intros Hno [u v] w Hw Heq. cbn in Heq. subst v. apply (Hno u). eauto.
Qed.

Lemma add_node_NoDup (ns : list str) (u : str) :
  NoDup ns → NoDup (add_node ns u).
Proof.
  intros Hnd. unfold add_node. case_decide; [done|].
  apply NoDup_app. split_and!; [done | | apply NoDup_singleton].
  intros x Hx. rewrite list_elem_of_singleton. by intros ->.
Qed.

Lemma add_adjacency_NoDup (weight : Z) (G : DiGraph) (pair : str * str) :
  NoDup (nodes G) → NoDup (nodes (add_adjacency weight G pair)).
Proof.
  intros Hnd. unfold add_adjacency. case_decide; [done|].
  cbn. by do 2 apply add_node_NoDup.
Qed.

Lemma document_graph_NoDup (weight : Z) (tokens : list str) :
  NoDup (nodes (document_graph weight tokens)).
Proof.
  unfold document_graph. cbn.
  assert (∀ pairs G, NoDup (nodes G) →
            NoDup (nodes (foldl (add_adjacency weight) G pairs))) as Hfold.
  { induction pairs as [|p pairs IH]; intros G HG; [done|].
    cbn. by apply IH, add_adjacency_NoDup. }
  apply Hfold. apply NoDup_nil_2.
Qed.

(** C9. The graph that [get_document_graph] builds has no edge from a node
    to itself; it is the graph stored in [self.G], and the ranker is only
    ever called on it: a ranker that refuses graphs with a self-loop gives
    the same result. *)
Theorem document_graph_no_selfloop (tokens : list str) (tc : gmap str Q) :
  (∀ u, ¬ has_edge (document_graph 1 tokens) u u) ∧
  match get_document_graph hp tokens tc with
  | Ok ranked => ranked.1 = document_graph 1 tokens ∧ no_selfloops ranked.1
  | Raise _ => True
  end ∧
  @get_document_graph U (selfloop_free_only E) hp tokens tc
    = @get_document_graph U E hp tokens tc.
Proof.
  assert (no_selfloops (document_graph 1 tokens)) as Hno
    by apply remove_selfloops_ok.
  split_and!.
  - by apply no_selfloops_has_edge.
  - unfold get_document_graph.
    destruct (personalization_from tc tokens ∅) as [pers|e]; [|done]. cbn.
    destruct (base_ranks hp _ pers) as [nr|e]; [|done]. cbn. done.
  - unfold get_document_graph.
    destruct (personalization_from tc tokens ∅) as [pers|e]; [|done]. cbn.
    unfold base_ranks. case_decide; [|done]. cbn.
    by rewrite decide_True.
Qed.

End Graph.

(** ** Sorting and slicing *)

Lemma insert_desc_perm (x : str * Q) (l : list (str * Q)) :
  insert_desc x l ≡ₚ x :: l.
Proof.
  induction l as [|y l IH]; [done|].
  cbn [insert_desc]. destruct (Qle_bool y.2 x.2); [done|].
  rewrite IH. apply Permutation_swap.
Qed.

Lemma sorted_desc_perm (l : list (str * Q)) : sorted_desc l ≡ₚ l.
Proof.
  induction l as [|x l IH]; [done|].
  cbn [sorted_desc foldr]. rewrite insert_desc_perm. by f_equiv.
Qed.

Lemma insert_desc_sorted (x : str * Q) (l : list (str * Q)) :
  StronglySorted score_ge l → StronglySorted score_ge (insert_desc x l).
Proof.
  induction 1 as [|y l Hl IH Hy]; cbn [insert_desc].
  - repeat constructor.
  - destruct (Qle_bool y.2 x.2) eqn:Hle.
    + apply Qle_bool_iff in Hle.
      constructor; [by constructor|].
      constructor; [done|].
      eapply Forall_impl; [exact Hy|].
      intros z Hz. unfold score_ge in *. by eapply Qle_trans.
    + constructor; [done|].
      rewrite insert_desc_perm. constructor; [|done].
      unfold score_ge. apply Qlt_le_weak, Qnot_le_lt.
      intros Hle'. apply Qle_bool_iff in Hle'. congruence.
Qed.

Lemma sorted_desc_sorted (l : list (str * Q)) :
  StronglySorted score_ge (sorted_desc l).
Proof.
  induction l as [|x l IH]; [constructor|].
  cbn [sorted_desc foldr]. by apply insert_desc_sorted.
Qed.

Lemma StronglySorted_lookup {A} (R : A → A → Prop) (l : list A) :
  StronglySorted R l →
  ∀ i j a b, (i < j)%nat → l !! i = Some a → l !! j = Some b → R a b.
Proof.
  induction 1 as [|x l Hl IH Hx]; intros i j a b Hij Ha Hb; [done|].
  destruct j as [|j]; [lia|]. cbn in Hb.
  destruct i as [|i]; cbn in Ha.
  - injection Ha as <-. rewrite Forall_forall in Hx.
    eapply Hx, list_elem_of_lookup_2, Hb.
  - eapply (IH i j); [lia|done..].
Qed.

Lemma slice_to_take {A} (l : list A) (k : Z) : ∃ n, slice_to l k = take n l.
Proof. unfold slice_to. case_decide; eauto. Qed.

Lemma slice_to_length {A} (l : list A) (k : Z) :
  (0 ≤ k)%Z → (Z.of_nat (length (slice_to l k)) ≤ k)%Z.
Proof.
  intros Hk. unfold slice_to. rewrite decide_True by done.
  rewrite length_take. lia.
Qed.

Lemma slice_to_sorted {A} (R : A → A → Prop) (l : list A) (k : Z) :
  StronglySorted R l → StronglySorted R (slice_to l k).
Proof.
  intros Hl. destruct (slice_to_take l k) as [n ->].
  rewrite <- (take_drop n l) in Hl. by eapply StronglySorted_app_1_l.
Qed.

Lemma slice_to_subseteq {A} (l : list A) (k : Z) : slice_to l k ⊆ l.
Proof. destruct (slice_to_take l k) as [n ->]. apply subseteq_take. Qed.

(** ** The keyword combiner *)

Section Combiner.
Context `{U : Unicode}.
Variable hp : Hyperparameters.

Lemma combine_fold_elem (node_ranks : list (str * Q)) : ∀ st x,
  x ∈ (foldl (combine_step hp) st node_ranks).1 →
  x ∈ st.1 ∨
  (x ∈ node_ranks ∧ (lower x.1 ∉ stopwords hp) ∧ (3 ≤ length x.1)%nat).
Proof.
  induction node_ranks as [|item nr IH]; intros st x Hx; [by left|].
  cbn [foldl] in Hx. apply IH in Hx as [Hx|(Hx & ?)].
  - unfold combine_step in Hx.
    case_decide as Hdrop; [by left|]. cbn [fst] in Hx.
    case_decide; [|by left].
    apply elem_of_app in Hx as [Hx|Hx]; [by left|].
    apply list_elem_of_singleton in Hx. subst x. right.
    destruct item as [k v]. cbn in *.
    split_and!; [by left | tauto | lia].
  - right. split; [by right|done].
Qed.

Lemma combine_keywords_elem (node_ranks : list (str * Q)) (x : str * Q) :
  x ∈ combine_keywords hp node_ranks →
  x ∈ node_ranks ∧ (lower x.1 ∉ stopwords hp) ∧ (3 ≤ length x.1)%nat.
Proof.
  unfold combine_keywords. rewrite sorted_desc_perm.
  intros Hx. apply combine_fold_elem in Hx as [Hx|Hx]; [|done].
  by apply elem_of_nil in Hx.
Qed.

Lemma combine_keywords_sorted (node_ranks : list (str * Q)) :
  StronglySorted score_ge (combine_keywords hp node_ranks).
Proof. apply sorted_desc_sorted. Qed.

End Combiner.

(** ** The pipeline *)

Section Pipeline.
Context `{U : Unicode} `{E : External}.
Variable hp : Hyperparameters.

(** The stages before the ranker raise nothing. *)
Lemma find_keywords_stages doc input_type lines :
  parse_input doc input_type = Ok lines →
  let document := join (py " ") lines in
  ∃ tokens tc pers,
    merge_tokens hp (tokenize document) (compute_tf_scores (tokenize document))
      = Ok (tokens, tc) ∧
    personalization_from tc tokens ∅ = Ok pers ∧
    find_keywords hp doc input_type =
      (node_ranks ← base_ranks hp (document_graph 1 tokens) pers;
       Ok (slice_to (combine_keywords hp (scale_by_length node_ranks))
             (num_keywords hp))).
Proof.
  intros Hparse document.
  destruct (merge_tokens_total hp (tokenize document))
    as ([tokens tc] & Hmerge & Hdom).
  destruct (personalization_from_total tc tokens ∅ Hdom) as [pers Hpers].
  exists tokens, tc, pers. split_and!; [done..|].
  unfold find_keywords. rewrite Hparse. cbn [mbind result_bind].
  fold document. rewrite Hmerge. cbn [mbind result_bind fst snd].
  unfold get_document_graph. rewrite Hpers. cbn [mbind result_bind].
  by destruct (base_ranks hp _ pers).
Qed.

Lemma base_ranks_raise G pers e :
  base_ranks hp G pers = Raise e →
  pagerank G (alpha hp) (max_iter hp) pers = Raise e.
Proof. unfold base_ranks. by case_decide. Qed.

Lemma find_keywords_cases doc input_type :
  match find_keywords hp doc input_type with
  | Ok out => ∃ node_ranks,
      out = slice_to (combine_keywords hp node_ranks) (num_keywords hp)
  | Raise e => raised_outside hp doc input_type e
  end.
Proof.
  destruct (parse_input doc input_type) as [lines|e] eqn:Hparse.
  - destruct (find_keywords_stages _ _ _ Hparse)
      as (tokens & tc & pers & _ & _ & ->).
    destruct (base_ranks hp _ pers) as [nr|e] eqn:Hbase; cbn.
    + by exists (scale_by_length nr).
    + right. eauto using base_ranks_raise.
  - unfold find_keywords. rewrite Hparse. cbn. by left.
Qed.

(** C3. With a non-negative [num_keywords], whatever [find_keywords]
    returns has at most that many entries, and a later entry never has a
    higher score than an earlier one. Nothing is raised but what reading the
    input or the ranker raises. *)
Theorem find_keywords_bounded_sorted doc input_type :
  (0 ≤ num_keywords hp)%Z →
  match find_keywords hp doc input_type with
  | Ok out =>
      (Z.of_nat (length out) ≤ num_keywords hp)%Z ∧
      ∀ i j a b, (i ≤ j)%nat → out !! i = Some a → out !! j = Some b →
                 b.2 <= a.2
  | Raise e => raised_outside hp doc input_type e
  end.
Proof.
  intros Hnk. pose proof (find_keywords_cases doc input_type) as Hcases.
  destruct (find_keywords hp doc input_type) as [out|e]; [|done].
  destruct Hcases as [nr ->]. split.
  - by apply slice_to_length.
  - intros i j a b Hij Ha Hb.
    destruct (decide (i = j)) as [->|Hne].
    + assert (a = b) as -> by congruence. apply Qle_refl.
    + eapply (StronglySorted_lookup score_ge); [|  |exact Ha|exact Hb].
      * apply slice_to_sorted, combine_keywords_sorted.
      * lia.
Qed.

(** C4. No keyword that [find_keywords] returns has its lowercased form
    among the stopwords, and each has at least three characters. *)
Theorem find_keywords_filtered doc input_type :
  match find_keywords hp doc input_type with
  | Ok out =>
      ∀ kw, kw ∈ out →
            (lower kw.1 ∉ stopwords hp) ∧ (3 ≤ length kw.1)%nat
  | Raise e => raised_outside hp doc input_type e
  end.
Proof.
  pose proof (find_keywords_cases doc input_type) as Hcases.
  destruct (find_keywords hp doc input_type) as [out|e]; [|done].
  destruct Hcases as [nr ->]. intros kw Hkw.
  apply slice_to_subseteq in Hkw.
  by apply combine_keywords_elem in Hkw as (_ & ? & ?).
Qed.

End Pipeline.

Lemma find_keywords_bounded_sorted_witness :
  match @find_keywords ascii_unicode closed_world (default_hp {[py "is"]})
          (DocStr (py "new york is great. new york is big."))
          (py "string") with
  | Ok out =>
      (Z.of_nat (length out) ≤ 10)%Z ∧
      ∀ i j a b, (i ≤ j)%nat → out !! i = Some a → out !! j = Some b →
                 b.2 <= a.2
  | Raise e =>
      @raised_outside closed_world (default_hp {[py "is"]})
        (DocStr (py "new york is great. new york is big.")) (py "string") e
  end.
Proof.
  apply (@find_keywords_bounded_sorted ascii_unicode closed_world
           (default_hp {[py "is"]})).
  by vm_compute.
Defined.

(** ** The node ranker *)









Section Ranker.
Context `{U : Unicode} `{E : External}.
Variable hp : Hyperparameters.


End Ranker.


(** ** The two forms of the input *)

Lemma split_no_sep (sep : char) (s : str) : sep ∉ s → split sep s = [s].
Proof.
  induction s as [|c s IH]; [done|].
  rewrite not_elem_of_cons. intros [Hne Hnot].
  cbn [split]. rewrite decide_False by done. by rewrite IH.
Qed.

Lemma split_app_sep (sep : char) (s rest : str) :
  sep ∉ s → split sep (s ++ sep :: rest) = s :: split sep rest.
Proof.
  induction s as [|c s IH].
  - intros _. cbn [app split]. by rewrite decide_True.
  - rewrite not_elem_of_cons. intros [Hne Hnot].
    cbn [app split]. rewrite decide_False by done. by rewrite IH.
Qed.

(** Splitting undoes joining lines that hold no newline. *)
Lemma split_join_lines (lines : list str) :
  lines ≠ [] → Forall (λ l, NEWLINE ∉ l) lines →
  split NEWLINE (join [NEWLINE] lines) = lines.
Proof.
  induction lines as [|l lines IH]; [done|].
  intros _ Hall. apply Forall_cons in Hall as [Hl Hall].
  destruct lines as [|l' lines].
  - by apply split_no_sep.
  - cbn [join]. cbn [app]. rewrite split_app_sep by done.
    f_equal. by apply IH.
Qed.

Section InputForms.
Context `{U : Unicode} `{E : External}.
Variable hp : Hyperparameters.

Lemma find_keywords_split (s : str) :
  find_keywords hp (DocStr s) (py "string")
    = find_keywords hp (DocList (split NEWLINE s)) (py "string").
Proof. done. Qed.

(** C7. With the input type "string", the raw string made of two lines
    with a newline between them gives the very result of the sequence of
    the two lines: same keywords, same order, same scores, or the same
    exception. *)
Theorem find_keywords_input_forms (line1 line2 : str) :
  NEWLINE ∉ line1 → NEWLINE ∉ line2 →
  find_keywords hp (DocStr (line1 ++ [NEWLINE] ++ line2)) (py "string")
    = find_keywords hp (DocList [line1; line2]) (py "string").
Proof.
  intros H1 H2. rewrite find_keywords_split.
  change (line1 ++ [NEWLINE] ++ line2) with (join [NEWLINE] [line1; line2]).
  rewrite split_join_lines; [done..|]. by repeat constructor.
Qed.

End InputForms.

Lemma find_keywords_input_forms_witness :
  @find_keywords ascii_unicode closed_world (default_hp ∅)
    (DocStr (py "line1" ++ [NEWLINE] ++ py "line2")) (py "string")
  = @find_keywords ascii_unicode closed_world (default_hp ∅)
      (DocList [py "line1"; py "line2"]) (py "string").
Proof.
  apply (@find_keywords_input_forms ascii_unicode closed_world);
    by_decide.
Defined.

(** ** The empty document *)

Section EmptyInput.
Context `{U : Unicode} `{E : External}.
Variable hp : Hyperparameters.

Lemma split_Forall (P : char → Prop) (sep : char) (s : str) :
  Forall P s → Forall (Forall P) (split sep s).
Proof.
  induction 1 as [|c s Hc Hs IH]; cbn [split].
  - by repeat constructor.
  - case_decide.
    + constructor; [constructor|done].
    + destruct (split sep s) as [|h t].
      * by repeat constructor.
      * apply Forall_cons in IH as [Hh Ht].
        constructor; [by constructor|done].
Qed.

Lemma join_Forall (P : char → Prop) (sep : str) (parts : list str) :
  Forall P sep → Forall (Forall P) parts → Forall P (join sep parts).
Proof.
  intros Hsep. induction 1 as [|p parts Hp Hparts IH]; [constructor|].
  cbn [join]. destruct parts as [|p' parts]; [done|].
  rewrite !Forall_app. by split_and!.
Qed.

Lemma word_runs_no_word (s : str) :
  Forall (λ c, isword c = false) s → word_runs [] s = [].
Proof.
  induction 1 as [|c s Hc Hs IH]; [done|].
  cbn [word_runs]. by rewrite Hc.
Qed.

Lemma drop_while_all (p : char → bool) (s : str) :
  Forall (λ c, p c = true) s → drop_while p s = [].
Proof.
  induction 1 as [|c s Hc Hs IH]; [done|].
  cbn [drop_while]. by rewrite Hc.
Qed.

Lemma tokenize_whitespace (document : str) :
  Forall (λ c, isspace c = true) document → tokenize document = [].
Proof.
  intros Hall.
  assert (findall document = []) as Hfind.
  { unfold findall. rewrite word_runs_no_word; [done|].
    eapply Forall_impl; [exact Hall|]. apply isspace_not_word. }
  unfold tokenize, space_factor. rewrite Hfind. cbn [length].
  rewrite decide_False by lia.
  change (Qltb 0 (1 # 2)) with true. cbn match.
  unfold strip. rewrite (drop_while_all isspace document) by done.
  reflexivity.
Qed.

Lemma parse_input_whitespace (doc : document) :
  whitespace_only doc →
  ∃ lines, parse_input doc (py "string") = Ok lines ∧
           Forall (Forall (λ c, isspace c = true)) lines.
Proof.
  destruct doc as [s|lines|]; cbn [whitespace_only]; [| |done].
  - intros Hs. exists (split NEWLINE s). split; [done|]. by apply split_Forall.
  - intros Hl. by exists lines.
Qed.

(** C8. A document of input type "string" that is empty or holds only
    white space makes [find_keywords] return the empty list and raise
    nothing: no token, no node, no keyword. A negative [num_keywords] sends
    even the empty graph to the ranker, which must then answer with no rank
    (as networkx does). *)
Theorem find_keywords_whitespace (doc : document) :
  whitespace_only doc →
  (0 ≤ num_keywords hp)%Z ∨
    pagerank (document_graph 1 []) (alpha hp) (max_iter hp) ∅ = Ok [] →
  ∃ lines, parse_input doc (py "string") = Ok lines ∧
    tokenize (join (py " ") lines) = [] ∧
    merge_tokens hp [] (compute_tf_scores []) = Ok ([], ∅) ∧
    nodes (document_graph 1 []) = [] ∧
    edges (document_graph 1 []) = ∅ ∧
    find_keywords hp doc (py "string") = Ok [].
Proof.
  intros Hws Hrank.
  destruct (parse_input_whitespace doc Hws) as (lines & Hparse & Hlines).
  assert (tokenize (join (py " ") lines) = []) as Htok.
  { apply tokenize_whitespace, join_Forall; [|done].
    repeat constructor. apply isspace_SPACE. }
  assert (merge_tokens hp [] (compute_tf_scores []) = Ok ([], ∅)) as Hmerge.
  { unfold merge_tokens. cbn [adjacent zip zip_with tail merge_loop].
    cbn [mbind result_bind term_counts]. unfold drop_merged.
    cbn [tmp_tokens merged]. by destruct (deduplication hp). }
  exists lines. split_and!; [done | done | done | done | |].
  { unfold document_graph. cbn. apply map_filter_empty. }
  unfold find_keywords. rewrite Hparse. cbn [mbind result_bind].
  rewrite Htok, Hmerge.
  cbn [mbind result_bind fst snd].
  unfold get_document_graph. cbn [personalization_from mbind result_bind].
  assert (base_ranks hp (document_graph 1 []) ∅ = Ok []) as ->.
  { unfold base_ranks. case_decide as Hnk.
    - destruct Hrank as [Hge|Hrank]; [|done].
      exfalso. cbn in Hnk. lia.
    - by cbn. }
  cbn [mbind result_bind snd].
  change (combine_keywords hp (scale_by_length [])) with (@nil (str * Q)).
  unfold slice_to. case_decide; by rewrite take_nil.
Qed.

End EmptyInput.

Lemma find_keywords_whitespace_witness :
  @find_keywords ascii_unicode diverging_world (default_hp ∅)
    (DocStr [SPACE; NEWLINE; 9%N; SPACE]) (py "string") = Ok [].
Proof.
  destruct (@find_keywords_whitespace ascii_unicode diverging_world
              (default_hp ∅) (DocStr [SPACE; NEWLINE; 9%N; SPACE]))
    as (lines & _ & _ & _ & _ & _ & Hout).
  - by repeat constructor.
  - left. by vm_compute.
  - exact Hout.
Defined.

(** ** The constructor *)

Section Constructor.
Variable stopwords_generic : gset str.

Lemma init_option_objects (l : loc) (kv : string * value) (h : heap)
    (d : gmap string value) :
  objects h !! l = Some d →
  objects (init_option l kv.1 kv.2 h) = <[l := setdefault d kv]> (objects h).
Proof.
  intros Hl. unfold init_option, contains, setdefault. rewrite Hl.
  destruct (d !! kv.1) as [v|] eqn:Hk.
  - rewrite bool_decide_eq_true_2 by eauto. by rewrite insert_id.
  - rewrite bool_decide_eq_false_2 by (by intros [? ?]).
    unfold store. cbn [objects].
    apply map_eq. intros l'. destruct (decide (l = l')) as [<-|Hne].
    + by rewrite lookup_alter_eq, lookup_insert_eq, Hl.
    + by rewrite lookup_alter_ne, lookup_insert_ne.
Qed.

Lemma init_options_objects (defaults : list (string * value)) :
  ∀ (l : loc) (h : heap) (d : gmap string value),
    objects h !! l = Some d →
    objects (foldl (λ h kv, init_option l kv.1 kv.2 h) h defaults)
      = <[l := foldl setdefault d defaults]> (objects h).
Proof.
  induction defaults as [|kv defaults IH]; intros l h d Hl.
  - cbn. by rewrite insert_id.
  - cbn [foldl].
    pose proof (init_option_objects l kv h d Hl) as Hstep.
    rewrite (IH l _ (setdefault d kv)).
    + rewrite Hstep. by rewrite insert_insert_eq.
    + rewrite Hstep. by rewrite lookup_insert_eq.
Qed.

Lemma setdefault_keeps (d : gmap string value) (kv : string * value)
    (k : string) (v : value) :
  d !! k = Some v → setdefault d kv !! k = Some v.
Proof.
  intros Hk. unfold setdefault. destruct (d !! kv.1) eqn:Hkv; [done|].
  rewrite lookup_insert_ne; [done|]. intros Heq. congruence.
Qed.

Lemma fold_setdefault_keeps (defaults : list (string * value)) :
  ∀ (d : gmap string value) (k : string) (v : value),
    d !! k = Some v → foldl setdefault d defaults !! k = Some v.
Proof.
  induction defaults as [|kv defaults IH]; intros d k v Hk; [done|].
  cbn [foldl]. by apply IH, setdefault_keeps.
Qed.

Lemma fold_setdefault_other (defaults : list (string * value)) :
  ∀ (d : gmap string value) (k : string),
    k ∉ defaults.*1 → foldl setdefault d defaults !! k = d !! k.
Proof.
  induction defaults as [|kv defaults IH]; intros d k Hk; [done|].
  rewrite fmap_cons, not_elem_of_cons in Hk. destruct Hk as [Hne Hk].
  cbn [foldl]. rewrite IH by done.
  unfold setdefault. destruct (d !! kv.1); [done|].
  by rewrite lookup_insert_ne.
Qed.

Lemma fold_setdefault_fills (defaults : list (string * value)) :
  ∀ (d : gmap string value) (k : string) (v : value),
    NoDup defaults.*1 → (k, v) ∈ defaults → d !! k = None →
    foldl setdefault d defaults !! k = Some v.
Proof.
  induction defaults as [|kv defaults IH]; intros d k v Hnd Hin Hk.
  - by apply elem_of_nil in Hin.
  - rewrite fmap_cons in Hnd. apply NoDup_cons in Hnd as [Hfresh Hnd].
    cbn [foldl]. apply elem_of_cons in Hin as [<-|Hin].
    + apply fold_setdefault_keeps. unfold setdefault. cbn [fst snd].
      rewrite Hk. by rewrite lookup_insert_eq.
    + apply IH; [done..|].
      unfold setdefault. destruct (d !! kv.1); [done|].
      rewrite lookup_insert_ne; [done|].
      intros Heq. apply Hfresh. rewrite Heq.
      apply list_elem_of_fmap. by exists (k, v).
Qed.

Lemma option_defaults_NoDup : NoDup (option_defaults stopwords_generic).*1.
Proof. cbn. by_decide. Qed.

Lemma read_default_hyperparameters :
  read_hyperparameters (fill_defaults stopwords_generic ∅)
    = Some (default_hp stopwords_generic).
Proof. reflexivity. Qed.

(** C10. Built on the dictionary [d] that the caller holds at [l], a
    detector keeps that very reference, and the dictionary at [l] is
    changed in place: what the caller had set stays, and every option left
    out is there with its default. Built with no argument, two detectors
    hold one and the same reference, the one of the default value of the
    signature, so that an entry stored through the one is read through the
    other. *)
Theorem init_fills_and_shares (h : heap) (cls : detector_class) (l : loc)
    (d : gmap string value) (va vb : bool) :
  objects h !! l = Some d →
  (let made := init stopwords_generic cls h (Some l) va in
   hyperparameters made.2 = l ∧
   objects made.1 = <[l := fill_defaults stopwords_generic d]> (objects h) ∧
   (∀ k v, d !! k = Some v →
           fill_defaults stopwords_generic d !! k = Some v) ∧
   (∀ k v, (k, v) ∈ option_defaults stopwords_generic → d !! k = None →
           fill_defaults stopwords_generic d !! k = Some v) ∧
   (∀ k, k ∉ (option_defaults stopwords_generic).*1 →
         fill_defaults stopwords_generic d !! k = d !! k)) ∧
  (let defined := define_class h in
   let first := init stopwords_generic defined.2 defined.1 None va in
   let second := init stopwords_generic defined.2 first.1 None vb in
   hyperparameters first.2 = hyperparameters second.2 ∧
   objects second.1 !! hyperparameters second.2
     = Some (fill_defaults stopwords_generic ∅) ∧
   ∀ k v, load (store second.1 (hyperparameters first.2) k v)
               (hyperparameters second.2) k = Some v).
Proof.
  intros Hl. split.
  - cbn zeta. unfold init. cbn [fst snd hyperparameters default].
    split_and!.
    + done.
    + by apply init_options_objects.
    + intros k v. apply fold_setdefault_keeps.
    + intros k v. apply fold_setdefault_fills, option_defaults_NoDup.
    + intros k. apply fold_setdefault_other.
  - cbn zeta. unfold init, define_class.
    cbn [fst snd hyperparameters default default_hyperparameters].
    set (l0 := fresh (dom (objects h))).
    set (h0 := {| objects := <[l0 := ∅]> (objects h) |}).
    assert (objects h0 !! l0 = Some ∅) as H0 by apply lookup_insert_eq.
    pose proof (init_options_objects (option_defaults stopwords_generic)
                  l0 h0 ∅ H0) as H1.
    set (h1 := foldl _ h0 _) in *.
    assert (objects h1 !! l0 = Some (fill_defaults stopwords_generic ∅))
      as Hl1 by (rewrite H1; apply lookup_insert_eq).
    pose proof (init_options_objects (option_defaults stopwords_generic)
                  l0 h1 _ Hl1) as H2.
    set (h2 := foldl _ h1 _) in *.
    assert (objects h2 !! l0 = Some (fill_defaults stopwords_generic ∅))
      as Hl2.
    { rewrite H2, lookup_insert_eq. reflexivity. }
    split_and!; [done|done|].
    intros k v. unfold load, store. cbn [objects].
    rewrite lookup_alter_eq, Hl2. cbn. apply lookup_insert_eq.
Qed.

End Constructor.

Lemma init_fills_and_shares_witness :
  let h := {| objects := {[ 0%nat := {[ "num_keywords"%string := VInt 3 ]} ]} |} in
  let made := init ∅ {| default_hyperparameters := 1%nat |} h (Some 0%nat) true in
  (d ← objects made.1 !! 0%nat; d !! "num_keywords"%string) = Some (VInt 3) ∧
  (d ← objects made.1 !! 0%nat; d !! "max_iter"%string) = Some (VInt 100).
Proof.
  intros h made.
  destruct (init_fills_and_shares ∅ h {| default_hyperparameters := 1%nat |}
              0%nat {[ "num_keywords"%string := VInt 3 ]} true true
              (lookup_singleton_eq _ _))
    as [(_ & Hobj & Hkeep & Hfill & _) _].
  subst made. cbn zeta in Hobj. unfold loc in *.
  rewrite Hobj, lookup_insert_eq.
  cbn [mbind option_bind].
  split.
  - apply Hkeep. apply lookup_singleton_eq.
  - apply Hfill; [|by apply lookup_singleton_ne].
    unfold option_defaults.
    do 3 apply list_elem_of_further. apply list_elem_of_here.
Defined.

(* ================================================================== *)
(** * Further properties of the code *)
(* ================================================================== *)

(** ** Tokens *)

Section Tokens.
Context `{U : Unicode}.

Lemma isword_SPACE : isword SPACE = false.
Proof. apply isspace_not_word, isspace_SPACE. Qed.

(** Each run that [word_runs] returns stands in the text between two
    characters that are not word characters (or the ends of the text). *)
Lemma word_runs_spec (s : str) : ∀ (cur : str) (w : str),
  Forall (λ c, isword c = true) cur →
  w ∈ word_runs cur s →
  w ≠ [] ∧ Forall (λ c, isword c = true) w ∧
  ∃ pre post, reverse cur ++ s = pre ++ w ++ post ∧
    (∀ c, last pre = Some c → isword c = false) ∧
    (∀ c, head post = Some c → isword c = false).
Proof.
  induction s as [|c s IH]; intros cur w Hcur Hw.
  - cbn [word_runs] in Hw. destruct cur as [|c0 cur].
    + by apply elem_of_nil in Hw.
    + apply list_elem_of_singleton in Hw. subst w. split_and!.
      * intros Hnil. apply (f_equal length) in Hnil.
        rewrite length_reverse in Hnil. done.
      * by apply Forall_reverse.
      * exists [], []. rewrite !app_nil_r. by split_and!.
  - cbn [word_runs] in Hw. destruct (isword c) eqn:Hc.
    + destruct (IH (c :: cur) w) as (Hne & Hall & pre & post & Heq & Hl & Hr);
        [by constructor | done |].
      split_and!; [done..|]. exists pre, post.
      rewrite reverse_cons, <- app_assoc in Heq. by split_and!.
    + assert (∀ w, w ∈ word_runs [] s →
                w ≠ [] ∧ Forall (λ c, isword c = true) w ∧
                ∃ pre post, reverse cur ++ c :: s = pre ++ w ++ post ∧
                  (∀ c, last pre = Some c → isword c = false) ∧
                  (∀ c, head post = Some c → isword c = false)) as Hrest.
      { intros w' Hw'.
        destruct (IH [] w') as (Hne & Hall & pre & post & Heq & Hl & Hr);
          [constructor | done |].
        split_and!; [done..|].
        exists (reverse cur ++ c :: pre), post. split_and!.
        - cbn in Heq. rewrite Heq. by rewrite <- !app_assoc.
        - intros c'. rewrite last_app. cbn [last].
          destruct pre as [|p pre].
          + cbn. by intros [= <-].
          + rewrite last_cons_cons. destruct (last (p :: pre)) eqn:Hlast.
            * intros [= <-]. by apply Hl.
            * by apply last_None in Hlast.
        - done. }
      destruct cur as [|c0 cur]; [by apply Hrest|].
      apply elem_of_cons in Hw as [-> | Hw]; [|by apply Hrest].
      split_and!.
      * intros Hnil. apply (f_equal length) in Hnil.
        rewrite length_reverse in Hnil. done.
      * by apply Forall_reverse.
      * exists [], (c :: s). split_and!; [done|done|].
        cbn. by intros c' [= <-].
Qed.

(** X1. Every match of the word pattern is a stretch of the document made
    of at least two word characters, with no word character right before it
    or right after it. *)
Theorem findall_maximal_runs (document w : str) :
  w ∈ findall document →
  (2 ≤ length w)%nat ∧ Forall (λ c, isword c = true) w ∧
  ∃ pre post, document = pre ++ w ++ post ∧
    (∀ c, last pre = Some c → isword c = false) ∧
    (∀ c, head post = Some c → isword c = false).
Proof.
  unfold findall. rewrite list_elem_of_filter. intros [Hlen Hw].
  destruct (word_runs_spec document [] w) as (_ & Hall & Hrest);
    [constructor | done |].
  by split_and!.
Qed.

(** X2. A token of [tokenize] is never empty, never holds a space and is
    never made of digits only; it is one character, or at least two word
    characters. *)
Theorem tokenize_tokens (document t : str) :
  t ∈ tokenize document →
  t ≠ [] ∧ (SPACE ∉ t) ∧ str_isdigit t = false ∧
  (length t = 1%nat ∨
   (2 ≤ length t)%nat ∧ Forall (λ c, isword c = true) t).
Proof.
  unfold tokenize. destruct (Qltb _ _).
  - rewrite char_mode_filters. unfold chars.
    rewrite list_elem_of_fmap. intros (c & -> & Hc).
    apply list_elem_of_filter in Hc as [(Hs & _ & _ & Hd) _].
    split_and!; [done | | | by left].
    + rewrite list_elem_of_singleton. congruence.
    + cbn. by rewrite Hd.
  - rewrite list_elem_of_filter. intros [Hd Hw].
    apply findall_maximal_runs in Hw as (Hlen & Hall & _).
    split_and!; [| |done|by right].
    + intros ->. cbn in Hlen. lia.
    + intros Hin. rewrite Forall_forall in Hall.
      apply Hall in Hin. by rewrite isword_SPACE in Hin.
Qed.

End Tokens.

Lemma findall_maximal_runs_witness :
  (2 ≤ length (py "york"))%nat.
Proof.
  apply (@findall_maximal_runs ascii_unicode (py "new york 42") (py "york")).
  by_decide.
Defined.

Lemma tokenize_tokens_witness : SPACE ∉ py "york".
Proof.
  apply (@tokenize_tokens ascii_unicode (py "new york 42") (py "york")).
  by_decide.
Defined.

(** ** Term frequencies *)

Lemma dict_get_set (d : list (str * Q)) (k k' : str) (v : Q) :
  dict_get (dict_set d k v) k' =
    if decide (k = k') then Some v else dict_get d k'.
Proof.
  induction d as [|kv d IH]; cbn [dict_set dict_get].
  - cbn. by case_decide.
  - destruct (decide (kv.1 = k)) as [Hk|Hk]; cbn [dict_get fst snd].
    + subst k. by destruct (decide (kv.1 = k')).
    + rewrite IH. destruct (decide (kv.1 = k')) as [Hk'|Hk']; [|done].
      rewrite decide_False; [done|congruence].
Qed.

Lemma dict_set_keys (d : list (str * Q)) (k : str) (v : Q) :
  (dict_set d k v).*1 = if decide (k ∈ d.*1) then d.*1 else d.*1 ++ [k].
Proof.
  induction d as [|kv d IH]; cbn [dict_set].
  - rewrite decide_False by apply not_elem_of_nil. done.
  - rewrite fmap_cons. destruct (decide (kv.1 = k)) as [Hk|Hk].
    + rewrite decide_True by (subst k; by left). rewrite fmap_cons.
      cbn [fst]. by rewrite Hk.
    + rewrite fmap_cons, IH. destruct (decide (k ∈ d.*1)) as [Hin|Hout].
      * rewrite decide_True by (by right). done.
      * rewrite decide_False; [done|].
        rewrite not_elem_of_cons. split; [congruence|done].
Qed.

Lemma dict_set_NoDup (d : list (str * Q)) (k : str) (v : Q) :
  NoDup d.*1 → NoDup (dict_set d k v).*1.
Proof.
  intros Hnd. rewrite dict_set_keys. case_decide as Hin; [done|].
  apply NoDup_app. split_and!; [done| |apply NoDup_singleton].
  intros x Hx. rewrite list_elem_of_singleton. by intros ->.
Qed.

Lemma dict_get_elem (d : list (str * Q)) (k : str) (v : Q) :
  NoDup d.*1 → (k, v) ∈ d ↔ dict_get d k = Some v.
Proof.
  induction d as [|kv d IH]; intros Hnd.
  - cbn. rewrite elem_of_nil. naive_solver.
  - rewrite fmap_cons in Hnd. apply NoDup_cons in Hnd as [Hfresh Hnd].
    specialize (IH Hnd).
    rewrite elem_of_cons. cbn [dict_get].
    destruct (decide (kv.1 = k)) as [Hk|Hk].
    + split.
      * intros [<-|Hin]; [done|]. exfalso. apply Hfresh. subst k.
        apply list_elem_of_fmap. by exists (kv.1, v).
      * intros [= <-]. left. subst k. by destruct kv.
    + rewrite <- IH. split; [|by right].
      intros [Heq|Hin]; [|done]. subst kv. by cbn in Hk.
Qed.

Lemma term_counter_snoc (tokens : list str) (t : str) :
  term_counter (tokens ++ [t]) = counter_update (term_counter tokens) t.
Proof. unfold term_counter. by rewrite foldl_app. Qed.

Lemma term_counter_NoDup (tokens : list str) :
  NoDup (term_counter tokens).*1.
Proof.
  induction tokens as [|t tokens IH] using rev_ind.
  - apply NoDup_nil_2.
  - rewrite term_counter_snoc. by apply dict_set_NoDup.
Qed.

Lemma term_counter_get (tokens : list str) (t : str) :
  dict_get (term_counter tokens) t = compute_tf_scores tokens !! t.
Proof.
  unfold compute_tf_scores.
  induction tokens as [|x tokens IH] using rev_ind; [done|].
  rewrite term_counter_snoc, Counter_snoc. unfold counter_update.
  rewrite dict_get_set. destruct (decide (x = t)) as [->|Hne].
  - by rewrite lookup_insert_eq, IH.
  - by rewrite lookup_insert_ne.
Qed.

(** X3. The counter of [compute_tf_scores] holds every token once, with
    the number of its occurrences in the token sequence, and nothing else;
    as a dictionary it is [self.term_counts]. *)
Theorem term_counter_spec (tokens : list str) :
  NoDup (term_counter tokens).*1 ∧
  (∀ t c, (t, c) ∈ term_counter tokens ↔
          t ∈ tokens ∧ c = Qnat (occurrences t tokens)) ∧
  (∀ t, dict_get (term_counter tokens) t = compute_tf_scores tokens !! t).
Proof.
  split_and!; [apply term_counter_NoDup | | apply term_counter_get].
  intros t c. rewrite dict_get_elem by apply term_counter_NoDup.
  rewrite term_counter_get. unfold compute_tf_scores.
  rewrite Counter_lookup. case_decide; naive_solver.
Qed.

Lemma insert_desc_stable (x : str * Q) (l : list (str * Q)) (q : Q) :
  filter (λ kv, kv.2 == q) (insert_desc x l)
    = filter (λ kv, kv.2 == q) (x :: l).
Proof.
  induction l as [|y l IH]; [done|].
  cbn [insert_desc]. destruct (Qle_bool y.2 x.2) eqn:Hle; [done|].
  rewrite filter_cons, IH, !filter_cons.
  destruct (decide (y.2 == q)) as [Hy|Hy]; [|done].
  destruct (decide (x.2 == q)) as [Hx|Hx]; [|done].
  exfalso. assert (Qle_bool y.2 x.2 = true); [|congruence].
  apply Qle_bool_iff. rewrite Hx, Hy. apply Qle_refl.
Qed.

(** The sort is stable: entries of equal score keep their order. *)
Lemma sorted_desc_stable (l : list (str * Q)) (q : Q) :
  filter (λ kv, kv.2 == q) (sorted_desc l) = filter (λ kv, kv.2 == q) l.
Proof.
  induction l as [|x l IH]; [done|].
  cbn [sorted_desc foldr]. rewrite insert_desc_stable.
  rewrite !filter_cons. fold (sorted_desc l). by rewrite IH.
Qed.

(** X4. [sorted_terms_tf] lists the entries of the counter, each once, by
    count from the highest down; tokens of equal count stay in the order in
    which the counter holds them. *)
Theorem sorted_terms_tf_spec (tokens : list str) :
  sorted_terms_tf tokens ≡ₚ term_counter tokens ∧
  (∀ i j a b, (i ≤ j)%nat → sorted_terms_tf tokens !! i = Some a →
              sorted_terms_tf tokens !! j = Some b → b.2 <= a.2) ∧
  (∀ q, filter (λ kv, kv.2 == q) (sorted_terms_tf tokens)
          = filter (λ kv, kv.2 == q) (term_counter tokens)).
Proof.
  unfold sorted_terms_tf. split_and!.
  - apply sorted_desc_perm.
  - intros i j a b Hij Ha Hb. destruct (decide (i = j)) as [->|Hne].
    + assert (a = b) as -> by congruence. apply Qle_refl.
    + eapply (StronglySorted_lookup score_ge); [| |exact Ha|exact Hb].
      * apply sorted_desc_sorted.
      * lia.
  - apply sorted_desc_stable.
Qed.

(** Called with a document, [compute_tf_scores] counts the
    word-pattern matches of the document, digit-only ones included, whatever
    tokens the detector held: a count is the number of matches equal to the
    token. *)
Theorem compute_tf_scores_document `{U : Unicode} (document : str)
    (held : list str) (t : str) :
  let out := compute_tf_scores_full (Some document) held in
  out.1.1 = findall document ∧
  out.1.2 !! t =
    (if decide (t ∈ findall document)
     then Some (Qnat (occurrences t (findall document))) else None) ∧
  out.2 = sorted_terms_tf (findall document) ∧
  compute_tf_scores_full None held
    = (held, compute_tf_scores held, sorted_terms_tf held).
Proof.
  cbn. split_and!; [done| |done|done]. apply Counter_lookup.
Qed.

(** ** More on the token merger *)

Section MergerMore.
Variable hp : Hyperparameters.

(** What an iteration that ends well has done. *)
Lemma merge_step_inv bc st p st' :
  merge_step hp bc st p = Ok st' →
  ((p.1 ∈ stopwords hp ∨ p.2 ∈ stopwords hp) ∧
   st' = {| term_counts := term_counts st;
            tmp_tokens := tmp_tokens st ++ [p.1; p.2];
            merged := merged st |}) ∨
  ((p.1 ∉ stopwords hp) ∧ (p.2 ∉ stopwords hp) ∧ st' = st) ∨
  ((p.1 ∉ stopwords hp) ∧ (p.2 ∉ stopwords hp) ∧
   ∃ count1 count2 bgc c2,
     term_counts st !! p.1 = Some count1 ∧
     term_counts st !! p.2 = Some count2 ∧
     bc !! p = Some bgc ∧
     should_merge hp count1 count2 bgc p.1 p.2 ∧
     (c2 = count2 ∨ c2 = count1 * merge_threshold hp) ∧
     st' = {| term_counts :=
                <[p.2 := c2 * merge_threshold hp]>
                  (<[p.1 := count1 * merge_threshold hp]>
                     (<[to_add p.1 p.2 := bgc]> (term_counts st)));
              tmp_tokens := tmp_tokens st ++ [to_add p.1 p.2];
              merged := {[p.2]} ∪ ({[p.1]} ∪ merged st) |}).
Proof.
  destruct p as [token1 token2]. cbn [fst snd]. intros Hstep.
  assert (∃ count1 count2 bgc,
            term_counts st !! token1 = Some count1 ∧
            term_counts st !! token2 = Some count2 ∧
            bc !! (token1, token2) = Some bgc)
    as (count1 & count2 & bgc & H1 & H2 & Hb).
  { unfold merge_step in Hstep. cbn [fst snd] in Hstep.
    apply bind_Ok in Hstep as (c1 & Hg1 & Hstep).
    apply bind_Ok in Hstep as (c2 & Hg2 & Hstep).
    apply bind_Ok in Hstep as (b & Hgb & _).
    apply getitem_Ok in Hg1, Hg2, Hgb. eauto 10. }
  destruct (decide (token1 ∈ stopwords hp ∨ token2 ∈ stopwords hp))
    as [Hsw|Hsw].
  { left. split; [done|].
    rewrite (merge_step_stopword hp bc st _ _ _ _ _ H1 H2 Hb Hsw) in Hstep.
    by injection Hstep as <-. }
  assert ((token1 ∉ stopwords hp) ∧ (token2 ∉ stopwords hp)) as [Hs1 Hs2]
    by (split; intros ?; apply Hsw; auto).
  right. destruct (decide (should_merge hp count1 count2 bgc token1 token2))
    as [Hm|Hm].
  - right. split_and!; [done..|].
    destruct (merge_step_merge hp bc st _ _ _ _ _ H1 H2 Hb Hs1 Hs2 Hm)
      as (c2 & Hc2 & Hstep').
    rewrite Hstep' in Hstep. injection Hstep as <-.
    exists count1, count2, bgc, c2. split_and!; try done.
    destruct (decide (token1 = token2)) as [->|Hne].
    + rewrite lookup_insert_eq in Hc2. right. congruence.
    + rewrite lookup_insert_ne in Hc2 by done.
      rewrite lookup_insert_ne in Hc2 by apply to_add_neq_r.
      left. congruence.
  - left. split_and!; [done..|].
    rewrite (merge_step_skip hp bc st _ _ _ _ _ H1 H2 Hb Hs1 Hs2 Hm) in Hstep.
    by injection Hstep as <-.
Qed.

Lemma merge_step_effects bc st p st' :
  merge_step hp bc st p = Ok st' →
  (∀ x, x ∈ tmp_tokens st' → x ∈ tmp_tokens st ∨ from_pair hp p x) ∧
  (∀ x, x ∈ tmp_tokens st → x ∈ tmp_tokens st') ∧
  (∀ k, is_Some (term_counts st !! k) → is_Some (term_counts st' !! k)) ∧
  (∀ k, is_Some (term_counts st' !! k) →
        is_Some (term_counts st !! k) ∨ k = to_add p.1 p.2) ∧
  (∀ x, x ∈ merged st → x ∈ merged st').
Proof.
  intros Hstep. apply merge_step_inv in Hstep
    as [(Hsw & ->)|[(Hs1 & Hs2 & ->)|
        (Hs1 & Hs2 & c1 & c2 & bgc & c2' & H1 & H2 & Hb & Hm & _ & ->)]];
    cbn [tmp_tokens merged term_counts].
  - split_and!; try by auto.
    + intros x Hx. apply elem_of_app in Hx as [Hx|Hx]; [by left|].
      right. left. split; [done|]. set_solver.
    + intros x Hx. apply elem_of_app. by left.
  - split_and!; by auto.
  - split_and!.
    + intros x Hx. apply elem_of_app in Hx as [Hx|Hx]; [by left|].
      apply list_elem_of_singleton in Hx. right. right.
      destruct Hm as (_ & Hl2 & Hl1). by split_and!.
    + intros x Hx. apply elem_of_app. by left.
    + intros k Hk. rewrite !lookup_insert_is_Some'. auto.
    + intros k. rewrite !lookup_insert_is_Some'.
      intros [<-|[<-|[<-|Hk]]]; [left; eauto..|by right|by left].
    + set_solver.
Qed.

Lemma merge_loop_effects bc pairs : ∀ st st',
  merge_loop hp bc st pairs = Ok st' →
  (∀ x, x ∈ tmp_tokens st' →
        x ∈ tmp_tokens st ∨ ∃ p, p ∈ pairs ∧ from_pair hp p x) ∧
  (∀ x, x ∈ tmp_tokens st → x ∈ tmp_tokens st') ∧
  (∀ k, is_Some (term_counts st !! k) → is_Some (term_counts st' !! k)) ∧
  (∀ k, is_Some (term_counts st' !! k) →
        is_Some (term_counts st !! k) ∨
        ∃ p, p ∈ pairs ∧ k = to_add p.1 p.2) ∧
  (∀ x, x ∈ merged st → x ∈ merged st').
Proof.
  induction pairs as [|p pairs IH]; intros st st' Hloop.
  - injection Hloop as <-. split_and!; by auto.
  - cbn [merge_loop] in Hloop.
    apply bind_Ok in Hloop as (st1 & Hstep & Hloop).
    destruct (IH st1 st' Hloop) as (Htmp & Hmono & Hdom & Hnew & Hmer).
    destruct (merge_step_effects _ _ _ _ Hstep)
      as (Htmp1 & Hmono1 & Hdom1 & Hnew1 & Hmer1).
    split_and!.
    + intros x Hx. apply Htmp in Hx as [Hx|(q & Hq & Hfrom)].
      * apply Htmp1 in Hx as [Hx|Hx]; [by left|].
        right. exists p. split; [by left|done].
      * right. exists q. split; [by right|done].
    + auto.
    + auto.
    + intros k Hk. apply Hnew in Hk as [Hk|(q & Hq & ->)].
      * apply Hnew1 in Hk as [Hk| ->]; [by left|].
        right. exists p. split; [by left|done].
      * right. exists q. split; [by right|done].
    + auto.
Qed.

(** X5. Every token of the merged sequence comes from an adjacent pair of
    the input: it is one of the two tokens of a pair that holds a stopword,
    or the compound of a pair that holds none and whose tokens are both
    longer than [token_prune_len]. The term counts keep every key they had,
    and a new key is the compound of an adjacent pair. *)
Theorem merge_tokens_provenance (tokens : list str) (tc : gmap str Q)
    (out : list str) (tc' : gmap str Q) :
  merge_tokens hp tokens tc = Ok (out, tc') →
  (∀ x, x ∈ out → ∃ p, p ∈ adjacent tokens ∧ from_pair hp p x) ∧
  (∀ k, is_Some (tc !! k) → is_Some (tc' !! k)) ∧
  (∀ k, is_Some (tc' !! k) →
        is_Some (tc !! k) ∨ ∃ p, p ∈ adjacent tokens ∧ k = to_add p.1 p.2).
Proof.
  unfold merge_tokens. intros Hm.
  apply bind_Ok in Hm as (st & Hloop & [= <- <-]).
  destruct (merge_loop_effects _ _ _ _ Hloop)
    as (Htmp & _ & Hdom & Hnew & _).
  cbn [tmp_tokens term_counts] in *. split_and!; [|done|done].
  intros x Hx. apply drop_merged_subseteq in Hx.
  apply Htmp in Hx as [Hx|Hx]; [|done]. by apply elem_of_nil in Hx.
Qed.

End MergerMore.

Lemma merge_tokens_provenance_witness :
  ∃ p, p ∈ adjacent york_tokens ∧
       from_pair (default_hp {[py "is"]}) p (py "new york").
Proof.
  pose (hp := default_hp {[py "is"]}).
  destruct (merge_tokens_total hp york_tokens) as ([out tc] & Hmerge & _).
  pose proof (f_equal (λ r, match r with Ok o => o.1 | Raise _ => [] end)
                Hmerge) as Hout.
  vm_compute in Hout. subst out.
  destruct (merge_tokens_provenance hp york_tokens
              (compute_tf_scores york_tokens) _ tc Hmerge) as (Hfrom & _ & _).
  apply Hfrom. apply list_elem_of_here.
Defined.

Section MergerDedup.
Variable hp : Hyperparameters.

(** Tokens without a space: a compound shows its two parts. *)
Lemma to_add_inj (a b a' b' : str) :
  SPACE ∉ a → SPACE ∉ a' → to_add a b = to_add a' b' → a = a' ∧ b = b'.
Proof.
  unfold to_add. change (py " ") with [SPACE]. cbn [app].
  revert a'. induction a as [|c a IH]; intros a' Ha Ha' Heq.
  - destruct a' as [|c' a']; cbn in Heq.
    + by injection Heq as <-.
    + injection Heq as <- _. exfalso. apply Ha'. by left.
  - destruct a' as [|c' a']; cbn in Heq.
    + injection Heq as -> _. exfalso. apply Ha. by left.
    + injection Heq as <- Heq.
      apply not_elem_of_cons in Ha as [_ Ha].
      apply not_elem_of_cons in Ha' as [_ Ha'].
      by destruct (IH a' Ha Ha' Heq) as [-> ->].
Qed.

Lemma to_add_has_space (a b : str) : SPACE ∈ to_add a b.
Proof.
  unfold to_add. change (py " ") with [SPACE]. set_solver.
Qed.

(** While the loop runs over tokens that hold no space, an emitted token
    that holds one is the compound of a pair whose two tokens are marked. *)
Lemma merge_loop_marks bc (space_free : str → Prop) pairs :
  (∀ t, space_free t → SPACE ∉ t) →
  ∀ st st',
  (∀ p, p ∈ pairs → space_free p.1 ∧ space_free p.2) →
  (∀ x, x ∈ tmp_tokens st → SPACE ∈ x →
        ∃ p, space_free p.1 ∧ space_free p.2 ∧ x = to_add p.1 p.2 ∧
             p.1 ∈ merged st ∧ p.2 ∈ merged st) →
  merge_loop hp bc st pairs = Ok st' →
  ∀ x, x ∈ tmp_tokens st' → SPACE ∈ x →
       ∃ p, space_free p.1 ∧ space_free p.2 ∧ x = to_add p.1 p.2 ∧
            p.1 ∈ merged st' ∧ p.2 ∈ merged st'.
Proof.
  intros Hfree.
  induction pairs as [|p pairs IH]; intros st st' Hpairs Hinv Hloop.
  - by injection Hloop as <-.
  - cbn [merge_loop] in Hloop.
    apply bind_Ok in Hloop as (st1 & Hstep & Hloop).
    destruct (Hpairs p ltac:(by left)) as [Hp1 Hp2].
    apply (IH st1 st'); [|clear IH Hloop|done].
    { intros q Hq. apply Hpairs. by right. }
    apply merge_step_inv in Hstep
      as [(Hsw & ->)|[(Hs1 & Hs2 & ->)|
          (Hs1 & Hs2 & c1 & c2 & bgc & c2' & H1 & H2 & Hb & Hm & _ & ->)]];
      cbn [tmp_tokens merged]; [|done|].
    + intros x Hx Hsp. apply elem_of_app in Hx as [Hx|Hx]; [by apply Hinv|].
      exfalso. apply elem_of_cons in Hx as [->|Hx].
      * by apply (Hfree p.1).
      * apply list_elem_of_singleton in Hx. subst x. by apply (Hfree p.2).
    + intros x Hx Hsp. apply elem_of_app in Hx as [Hx|Hx].
      * destruct (Hinv x Hx Hsp) as (q & ? & ? & ? & ? & ?).
        exists q. split_and!; [done..| |]; set_solver.
      * apply list_elem_of_singleton in Hx. subst x.
        exists p. split_and!; [done..| |]; set_solver.
Qed.

Lemma drop_merged_spec (st : merge_state) (x : str) :
  deduplication hp = true →
  x ∈ drop_merged hp st ↔ x ∈ tmp_tokens st ∧ x ∉ merged st.
Proof.
  intros Hd. unfold drop_merged. rewrite Hd.
  rewrite list_elem_of_filter, elem_of_list_to_set, list_elem_of_filter.
  tauto.
Qed.

(** X6. With deduplication, over tokens that hold no space (as those of
    the tokenizer), no token of the merged sequence is a part of a compound
    of that sequence: once "t1 t2" is there, neither t1 nor t2 is. *)
Theorem merge_tokens_deduplicated (tokens : list str) (tc : gmap str Q)
    (out : list str) (tc' : gmap str Q) (t1 t2 : str) :
  deduplication hp = true →
  (∀ t, t ∈ tokens → SPACE ∉ t) →
  merge_tokens hp tokens tc = Ok (out, tc') →
  (t1, t2) ∈ adjacent tokens →
  to_add t1 t2 ∈ out →
  (t1 ∉ out) ∧ (t2 ∉ out).
Proof.
  intros Hd Hfree Hm Hadj Hin. unfold merge_tokens in Hm.
  apply bind_Ok in Hm as (st & Hloop & [= <- <-]).
  apply drop_merged_spec in Hin as [Hin _]; [|done].
  assert (∀ p, p ∈ adjacent tokens → p.1 ∈ tokens ∧ p.2 ∈ tokens) as Hpairs.
  { intros [a b] Hp. by apply adjacent_elem. }
  destruct (merge_loop_marks _ (λ t, t ∈ tokens) _ Hfree
              {| term_counts := tc; tmp_tokens := []; merged := ∅ |} st
              Hpairs
              ltac:(intros x Hx; by apply elem_of_nil in Hx)
              Hloop _ Hin (to_add_has_space t1 t2))
    as ([a b] & Ha & Hb & Heq & Hma & Hmb).
  cbn [fst snd] in *.
  destruct (adjacent_elem _ _ _ Hadj) as [Ht1 Ht2].
  apply to_add_inj in Heq as [-> ->]; [|by apply Hfree..].
  split; intros Hout; apply drop_merged_spec in Hout as [_ Hout]; done.
Qed.

End MergerDedup.

Lemma merge_tokens_deduplicated_witness :
  py "new" ∉ [py "new york"; py "is"; py "is"].
Proof.
  pose (hp := default_hp {[py "is"]}).
  destruct (merge_tokens_total hp york_tokens) as ([out tc] & Hmerge & _).
  pose proof (f_equal (λ r, match r with Ok o => o.1 | Raise _ => [] end)
                Hmerge) as Hout.
  vm_compute in Hout. subst out.
  refine (proj1 (merge_tokens_deduplicated hp york_tokens
                  (compute_tf_scores york_tokens) _ tc
                  (py "new") (py "york") _ _ Hmerge _ _)).
  - done.
  - apply Forall_forall. unfold york_tokens.
    repeat (constructor; [by_decide|]). constructor.
  - apply list_elem_of_here.
  - apply list_elem_of_here.
Defined.

Section MergerCounts.
Variable hp : Hyperparameters.

Lemma Qnat_pos (n : nat) : (0 < n)%nat → 0 < Qnat n.
Proof. intros Hn. unfold Qlt, Qnat. cbn. lia. Qed.

Lemma Counter_pos `{Countable K} (l : list K) (k : K) (c : Q) :
  Counter l !! k = Some c → 0 < c.
Proof.
  rewrite Counter_lookup. case_decide as Hin; [|done].
  intros [= <-]. by apply Qnat_pos, occurrences_pos.
Qed.

(** With positive counts the cohesion score is not negative. *)
Lemma bgs_not_below (count1 count2 bgc : Q) :
  0 < count1 → 0 < count2 → merge_threshold hp <= 0 →
  np_lt (bgs count1 count2 bgc) (merge_threshold hp) = false.
Proof.
  intros H1 H2 Hmt. apply not_true_is_false. rewrite np_lt_bgs.
  intros [_ Hlt]. apply (Qlt_not_le _ _ Hlt).
  apply Qle_trans with 0; [done|].
  apply Qle_shift_div_l.
  - apply Qlt_trans with count1; [done|].
    rewrite <- (Qplus_0_r count1) at 1. by apply Qplus_lt_r.
  - rewrite Qmult_0_l.
    rewrite <- (Qplus_0_r 0). apply Qplus_le_compat; apply Qabs_nonneg.
Qed.

Lemma filter_all {A} (P : A → Prop) `{∀ x, Decision (P x)} (l : list A) :
  (∀ x, x ∈ l → P x) → filter P l = l.
Proof.
  induction l as [|x l IH]; intros Hall; [done|].
  rewrite filter_cons_True by (apply Hall; by left).
  f_equal. apply IH. intros y Hy. apply Hall. by right.
Qed.

Lemma drop_merged_unmarked (st : merge_state) :
  merged st = ∅ → drop_merged hp st = tmp_tokens st.
Proof.
  intros Hm. unfold drop_merged. destruct (deduplication hp); [|done].
  rewrite Hm. apply filter_all. intros x _.
  rewrite elem_of_list_to_set, list_elem_of_filter. set_solver.
Qed.

Lemma merge_loop_no_merge (tokens : list str) (pairs : list (str * str)) :
  ∀ tmp,
  (∀ p, p ∈ pairs → p ∈ adjacent tokens ∧
     (p.1 ∈ stopwords hp ∨ p.2 ∈ stopwords hp ∨
      (Z.of_nat (length p.1) ≤ token_prune_len hp)%Z ∨
      (Z.of_nat (length p.2) ≤ token_prune_len hp)%Z ∨
      merge_threshold hp <= 0)) →
  merge_loop hp (Counter (adjacent tokens))
    {| term_counts := compute_tf_scores tokens; tmp_tokens := tmp;
       merged := ∅ |} pairs
  = Ok {| term_counts := compute_tf_scores tokens;
          tmp_tokens := tmp ++ flat_map (passed_through hp) pairs;
          merged := ∅ |}.
Proof.
  induction pairs as [|[t1 t2] pairs IH]; intros tmp Hall.
  - cbn. by rewrite app_nil_r.
  - destruct (Hall (t1, t2) ltac:(by left)) as [Hadj Hcond].
    cbn [fst snd] in Hcond.
    destruct (adjacent_elem _ _ _ Hadj) as [Ht1 Ht2].
    pose proof (Counter_elem tokens t1 Ht1) as H1.
    pose proof (Counter_elem tokens t2 Ht2) as H2.
    pose proof (Counter_elem (adjacent tokens) (t1, t2) Hadj) as Hb.
    cbn [merge_loop flat_map]. unfold passed_through at 1. cbn [fst snd].
    destruct (decide (t1 ∈ stopwords hp ∨ t2 ∈ stopwords hp)) as [Hsw|Hsw].
    + erewrite merge_step_stopword by done. cbn [mbind result_bind].
      cbn [term_counts tmp_tokens merged]. rewrite IH.
      * by rewrite <- app_assoc.
      * intros p Hp. apply Hall. by right.
    + erewrite merge_step_skip; [| exact H1 | exact H2 | exact Hb | | |].
      * cbn [mbind result_bind]. rewrite IH; [done|].
        intros p Hp. apply Hall. by right.
      * tauto.
      * tauto.
      * intros (Hlt & Hl2 & Hl1).
        destruct Hcond as [?|[?|[?|[?|Hmt]]]]; [tauto|tauto|lia|lia|].
        rewrite bgs_not_below in Hlt; [done| | |done].
        -- by apply Qnat_pos, occurrences_pos.
        -- by apply Qnat_pos, occurrences_pos.
Qed.

(** X7. When every adjacent pair holds a stopword, or a token no longer
    than [token_prune_len], or when the threshold is not positive, nothing is
    merged: the term counts stay, a pair with a stopword gives its two
    tokens (so that a token between two such pairs comes twice), any other
    pair gives nothing. A sequence of fewer than two tokens has no pair and
    merges to the empty sequence. *)
Theorem merge_tokens_no_merge (tokens : list str) :
  (∀ t1 t2, (t1, t2) ∈ adjacent tokens →
     t1 ∈ stopwords hp ∨ t2 ∈ stopwords hp ∨
     (Z.of_nat (length t1) ≤ token_prune_len hp)%Z ∨
     (Z.of_nat (length t2) ≤ token_prune_len hp)%Z ∨
     merge_threshold hp <= 0) →
  merge_tokens hp tokens (compute_tf_scores tokens)
    = Ok (flat_map (passed_through hp) (adjacent tokens),
          compute_tf_scores tokens) ∧
  ((length tokens ≤ 1)%nat →
   merge_tokens hp tokens (compute_tf_scores tokens)
     = Ok ([], compute_tf_scores tokens)).
Proof.
  intros Hall.
  assert (merge_tokens hp tokens (compute_tf_scores tokens)
          = Ok (flat_map (passed_through hp) (adjacent tokens),
                compute_tf_scores tokens)) as Hm.
  { unfold merge_tokens. rewrite merge_loop_no_merge.
    - cbn [mbind result_bind]. by rewrite drop_merged_unmarked.
    - intros [t1 t2] Hp. split; [done|]. by apply Hall. }
  split; [done|]. intros Hlen. rewrite Hm.
  destruct tokens as [|t [|t' tokens]]; [done|done|cbn in Hlen; lia].
Qed.

(** X8. With a positive threshold, the term counts that leave the merger
    are all positive: a merge multiplies positive counts by the threshold and
    gives the compound the positive count of its pair. *)
Theorem merge_tokens_counts_positive (tokens : list str) (out : list str)
    (tc' : gmap str Q) :
  0 < merge_threshold hp →
  merge_tokens hp tokens (compute_tf_scores tokens) = Ok (out, tc') →
  ∀ k c, tc' !! k = Some c → 0 < c.
Proof.
  intros Hmt Hm. unfold merge_tokens in Hm.
  apply bind_Ok in Hm as (st & Hloop & [= _ <-]).
  assert (∀ pairs st0 st1,
            (∀ k c, term_counts st0 !! k = Some c → 0 < c) →
            merge_loop hp (Counter (adjacent tokens)) st0 pairs = Ok st1 →
            ∀ k c, term_counts st1 !! k = Some c → 0 < c) as Hinv.
  { induction pairs as [|p pairs IH]; intros st0 st1 Hpos Hl.
    - by injection Hl as <-.
    - cbn [merge_loop] in Hl. apply bind_Ok in Hl as (st2 & Hstep & Hl).
      apply (IH st2 st1); [|done].
      apply merge_step_inv in Hstep
        as [(Hsw & ->)|[(Hs1 & Hs2 & ->)|
            (Hs1 & Hs2 & c1 & c2 & bgc & c2' & H1 & H2 & Hb & _ & Hc2 & ->)]];
        cbn [term_counts]; [done|done|].
      assert (0 < c1 * merge_threshold hp) as Hc1
        by (apply Qmult_lt_0_compat; eauto).
      intros k c. rewrite !lookup_insert_Some.
      intros [[_ <-]|[_ [[_ <-]|[_ [[_ <-]|[_ Hk]]]]]].
      + apply Qmult_lt_0_compat; [|done].
        destruct Hc2 as [-> | ->]; eauto.
      + done.
      + by eapply Counter_pos.
      + eauto. }
  apply (Hinv (adjacent tokens)
           {| term_counts := compute_tf_scores tokens; tmp_tokens := [];
              merged := ∅ |} st (λ k c, Counter_pos tokens k c) Hloop).
Qed.

End MergerCounts.

Lemma merge_tokens_no_merge_witness :
  merge_tokens (default_hp ∅) (chars (py "abc"))
    (compute_tf_scores (chars (py "abc")))
  = Ok ([], compute_tf_scores (chars (py "abc"))).
Proof.
  etransitivity; [|by vm_compute].
  refine (proj1 (merge_tokens_no_merge (default_hp ∅) (chars (py "abc")) _)).
  intros t1 t2 Hin. right. right. left.
  vm_compute in Hin.
  repeat (apply elem_of_cons in Hin as [[= -> ->]|Hin]; [by vm_compute|]).
  by apply elem_of_nil in Hin.
Defined.

Lemma merge_tokens_counts_positive_witness : 0 < 2.
Proof.
  pose (hp := default_hp {[py "is"]}).
  destruct (merge_tokens_total hp york_tokens) as ([out tc] & Hmerge & _).
  assert (match merge_tokens hp york_tokens (compute_tf_scores york_tokens)
          with
          | Ok o => o.2 !! py "new york"
          | Raise _ => None
          end = Some 2) as Hcount by (by vm_compute).
  rewrite Hmerge in Hcount.
  apply (merge_tokens_counts_positive hp york_tokens out tc
           ltac:(by vm_compute) Hmerge (py "new york") 2).
  exact Hcount.
Defined.

(** ** More on the graph *)

Section GraphMore.
Context `{U : Unicode}.

Lemma add_node_elem (ns : list str) (u x : str) :
  x ∈ add_node ns u ↔ x ∈ ns ∨ x = u.
Proof.
  unfold add_node. case_decide as Hin.
  - split; [by left|]. by intros [?| ->].
  - rewrite elem_of_app, list_elem_of_singleton. done.
Qed.

Lemma fold_adjacency_snoc (w : Z) (pairs : list (str * str)) (p : str * str) :
  foldl (add_adjacency w) empty_graph (pairs ++ [p])
    = add_adjacency w (foldl (add_adjacency w) empty_graph pairs) p.
Proof. by rewrite foldl_app. Qed.

Lemma fold_adjacency_edges (w : Z) (pairs : list (str * str)) :
  ∀ e : str * str,
  edges (foldl (add_adjacency w) empty_graph pairs) !! e =
    if decide (e ∈ map (λ p, (lower p.1, lower p.2)) pairs)
    then Some (w * Z.of_nat (occurrences e
                               (map (λ p, (lower p.1, lower p.2)) pairs)))%Z
    else None.
Proof.
  induction pairs as [|p pairs IH] using rev_ind; intros e.
  - cbn. rewrite decide_False by apply not_elem_of_nil. done.
  - rewrite fold_adjacency_snoc, map_app. cbn [map].
    set (G := foldl (add_adjacency w) empty_graph pairs) in *.
    set (lp := map (λ p, (lower p.1, lower p.2)) pairs) in *.
    set (e0 := (lower p.1, lower p.2)).
    rewrite occurrences_snoc.
    assert (has_edge G (lower p.1) (lower p.2) ↔ e0 ∈ lp) as Hhas.
    { unfold has_edge. fold e0. rewrite (IH e0).
      case_decide; [|split; [by intros [? ?]|done]].
      split; [done|eauto]. }
    unfold add_adjacency.
    destruct (decide (has_edge G (lower p.1) (lower p.2))) as [He|He];
      cbn [edges add_weight add_edge]; fold e0.
    + apply Hhas in He.
      destruct (decide (e0 = e)) as [<-|Hne].
      * rewrite lookup_alter_eq, IH, decide_True by done.
        rewrite decide_True by set_solver. cbn. f_equal. lia.
      * rewrite lookup_alter_ne, IH by done.
        destruct (decide (e ∈ lp)) as [Hin|Hout].
        -- rewrite decide_True by set_solver. done.
        -- rewrite decide_False by set_solver. done.
    + rewrite Hhas in He.
      destruct (decide (e0 = e)) as [<-|Hne].
      * rewrite lookup_insert_eq.
        rewrite decide_True by set_solver.
        assert (occurrences e0 lp = 0%nat) as ->.
        { apply (not_iff_compat (occurrences_pos e0 lp)) in He. lia. }
        f_equal. lia.
      * rewrite lookup_insert_ne, IH by done.
        destruct (decide (e ∈ lp)) as [Hin|Hout].
        -- rewrite decide_True by set_solver. done.
        -- rewrite decide_False by set_solver. done.
Qed.

Lemma fold_adjacency_nodes (w : Z) (pairs : list (str * str)) (x : str) :
  x ∈ nodes (foldl (add_adjacency w) empty_graph pairs) ↔
  ∃ p, p ∈ pairs ∧ (x = lower p.1 ∨ x = lower p.2).
Proof.
  induction pairs as [|p pairs IH] using rev_ind.
  - cbn. rewrite elem_of_nil. split; [done|].
    intros (p & Hp & _). by apply elem_of_nil in Hp.
  - rewrite fold_adjacency_snoc.
    set (G := foldl (add_adjacency w) empty_graph pairs) in *.
    assert (x ∈ nodes (add_adjacency w G p) ↔
            x ∈ nodes G ∨ (has_edge G (lower p.1) (lower p.2) → False) ∧
                           (x = lower p.1 ∨ x = lower p.2)) as ->.
    { unfold add_adjacency. case_decide as He; cbn [nodes add_weight add_edge].
      - tauto.
      - rewrite !add_node_elem. tauto. }
    rewrite IH. split.
    + intros [(q & Hq & Hx)|(_ & Hx)].
      * exists q. split; [|done]. apply elem_of_app. by left.
      * exists p. split; [|done]. apply elem_of_app. right. by left.
    + intros (q & Hq & Hx). apply elem_of_app in Hq as [Hq|Hq].
      * left. eauto.
      * apply list_elem_of_singleton in Hq. subst q.
        destruct (decide (has_edge G (lower p.1) (lower p.2)))
          as [He|He]; [|by right].
        left. unfold has_edge in He.
        rewrite (fold_adjacency_edges w pairs) in He.
        case_decide as Hin; [|by destruct He].
        apply list_elem_of_fmap in Hin as (q & [= H1 H2] & Hq).
        exists q. split; [done|]. destruct Hx as [-> | ->]; auto.
Qed.

Lemma adjacent_cover {A} (l : list A) (x : A) :
  (2 ≤ length l)%nat → x ∈ l →
  ∃ y, (x, y) ∈ adjacent l ∨ (y, x) ∈ adjacent l.
Proof.
  unfold adjacent. induction l as [|a l IH]; [cbn; lia|].
  intros Hlen Hx. destruct l as [|b l]; [cbn in Hlen; lia|].
  cbn [tail zip zip_with] in *.
  apply elem_of_cons in Hx as [->|Hx].
  - exists b. left. by left.
  - destruct l as [|c l].
    + apply list_elem_of_singleton in Hx. subst x.
      exists a. right. by left.
    + destruct (IH ltac:(cbn; lia) Hx) as [y [Hy|Hy]];
        exists y; [left|right]; by right.
Qed.

(** X9. In the graph of a token sequence, an edge goes from [u] to a
    different [v] exactly when [v] follows [u] somewhere in the lowercased
    sequence, and its weight is the weight of one step times the number of
    times this happens; no edge goes from a node to itself. *)
Theorem document_graph_edges (w : Z) (tokens : list str) (u v : str) :
  edges (document_graph w tokens) !! (u, v) =
    if decide (u ≠ v ∧ (u, v) ∈ lowered_pairs tokens)
    then Some (w * Z.of_nat (occurrences (u, v) (lowered_pairs tokens)))%Z
    else None.
Proof.
  unfold document_graph, remove_selfloops, lowered_pairs. cbn [edges].
  apply option_eq. intros z.
  rewrite map_lookup_filter_Some, fold_adjacency_edges. cbn [fst snd].
  case_decide as Hin; case_decide as Hc; naive_solver.
Qed.

(** X10. The nodes of the graph are the lowercased tokens that stand in an
    adjacent pair, each once: all the tokens when there are at least two,
    none for a single token, which therefore gives no keyword. Removing the
    self-loops removes no node. *)
Theorem document_graph_nodes (w : Z) (tokens : list str) :
  NoDup (nodes (document_graph w tokens)) ∧
  (∀ x, x ∈ nodes (document_graph w tokens) ↔
        ∃ p, p ∈ lowered_pairs tokens ∧ (x = p.1 ∨ x = p.2)) ∧
  ((2 ≤ length tokens)%nat →
   ∀ x, x ∈ nodes (document_graph w tokens) ↔ x ∈ lower <$> tokens) ∧
  ((length tokens ≤ 1)%nat → nodes (document_graph w tokens) = []).
Proof.
  assert (∀ x, x ∈ nodes (document_graph w tokens) ↔
               ∃ p, p ∈ lowered_pairs tokens ∧ (x = p.1 ∨ x = p.2)) as Hnodes.
  { intros x. unfold document_graph, lowered_pairs. cbn [nodes remove_selfloops].
    rewrite fold_adjacency_nodes. split.
    - intros (p & Hp & Hx). exists (lower p.1, lower p.2). split; [|done].
      apply list_elem_of_fmap. eauto.
    - intros (q & Hq & Hx).
      apply list_elem_of_fmap in Hq as (p & -> & Hp). eauto. }
  split_and!; [apply document_graph_NoDup | done | |].
  - intros Hlen x. rewrite Hnodes. unfold lowered_pairs. split.
    + intros (q & Hq & Hx).
      apply list_elem_of_fmap in Hq as ([a b] & -> & Hp).
      apply adjacent_elem in Hp as [Ha Hb]. cbn [fst snd] in Hx.
      apply list_elem_of_fmap. destruct Hx as [-> | ->]; eauto.
    + intros Hx. apply list_elem_of_fmap in Hx as (t & -> & Ht).
      destruct (adjacent_cover tokens t Hlen Ht) as [y [Hy|Hy]].
      * exists (lower t, lower y). split; [|by left].
        apply list_elem_of_fmap. by exists (t, y).
      * exists (lower y, lower t). split; [|by right].
        apply list_elem_of_fmap. by exists (y, t).
  - intros Hlen.
    destruct tokens as [|t [|t' tokens]]; [done|done|cbn in Hlen; lia].
Qed.

(** X11. The personalization vector has one entry per token of the merged
    sequence, under the token as it is written (not lowercased), with its
    term count; a token without a term count makes it raise [KeyError]. *)
Theorem personalization_spec (tc : gmap str Q) (tokens : list str) :
  ((∀ a, a ∈ tokens → is_Some (tc !! a)) →
   ∃ pers, personalization_from tc tokens ∅ = Ok pers ∧
     ∀ a, pers !! a = if decide (a ∈ tokens) then tc !! a else None) ∧
  ((∃ a, a ∈ tokens ∧ tc !! a = None) →
   personalization_from tc tokens ∅ = Raise KeyError).
Proof.
  assert (∀ toks acc,
    ((∀ a, a ∈ toks → is_Some (tc !! a)) →
     ∃ pers, personalization_from tc toks acc = Ok pers ∧
       ∀ a, pers !! a = if decide (a ∈ toks) then tc !! a else acc !! a) ∧
    ((∃ a, a ∈ toks ∧ tc !! a = None) →
     personalization_from tc toks acc = Raise KeyError)) as Hgen.
  { induction toks as [|t toks IH]; intros acc.
    - split.
      + intros _. exists acc. split; [done|]. intros a.
        rewrite decide_False by apply not_elem_of_nil. done.
      + intros (a & Ha & _). by apply elem_of_nil in Ha.
    - cbn [personalization_from]. split.
      + intros Hall. destruct (Hall t ltac:(by left)) as [v Hv].
        rewrite (getitem_Some _ _ _ Hv). cbn [mbind result_bind].
        destruct (IH (<[t := v]> acc)) as [IHok _].
        destruct IHok as (pers & Hp & Hlook).
        { intros a Ha. apply Hall. by right. }
        exists pers. split; [done|]. intros a. rewrite Hlook.
        destruct (decide (a ∈ toks)) as [Hin|Hout].
        * rewrite decide_True by (by right). done.
        * destruct (decide (a = t)) as [->|Hne].
          -- rewrite decide_True by (by left). by rewrite lookup_insert_eq.
          -- rewrite decide_False by set_solver.
             by rewrite lookup_insert_ne.
      + intros (a & Ha & Hnone). unfold getitem at 1.
        destruct (tc !! t) as [v|] eqn:Hv; [|done].
        cbn [mbind result_bind]. apply IH.
        apply elem_of_cons in Ha as [->|Ha]; [congruence|eauto]. }
  destruct (Hgen tokens ∅) as [Hok Hraise]. split; [|done].
  intros Hall. destruct (Hok Hall) as (pers & Hp & Hlook).
  exists pers. split; [done|]. intros a. rewrite Hlook.
  case_decide; [done|apply lookup_empty].
Qed.

End GraphMore.

(** ** More on the input *)

Lemma split_nonempty (sep : char) (s : str) : split sep s ≠ [].
Proof.
  destruct s as [|c s]; [done|]. cbn [split].
  case_decide; [done|]. by destruct (split sep s).
Qed.

Lemma join_cons_cons (sep : str) (c : char) (h : str) (t : list str) :
  join sep ((c :: h) :: t) = c :: join sep (h :: t).
Proof. by destruct t. Qed.

(** Joining with spaces the lines of a string turns its newlines into
    spaces and changes nothing else. *)
Lemma join_split_newlines (s : str) :
  join (py " ") (split NEWLINE s) = newlines_to_spaces s.
Proof.
  unfold newlines_to_spaces. induction s as [|c s IH]; [done|].
  cbn [split map]. destruct (decide (c = NEWLINE)) as [->|Hne].
  - pose proof (split_nonempty NEWLINE s) as Hs.
    destruct (split NEWLINE s) as [|h t] eqn:Hsplit; [done|].
    cbn [join]. cbn [app]. by rewrite <- IH.
  - pose proof (split_nonempty NEWLINE s) as Hs.
    destruct (split NEWLINE s) as [|h t] eqn:Hsplit; [done|].
    rewrite join_cons_cons. by rewrite IH.
Qed.

Section InputMore.
Context `{U : Unicode} `{E : External}.
Variable hp : Hyperparameters.

(** X12. An input type that is neither "file" nor "string" makes
    [find_keywords] raise [UnboundLocalError], whatever the document, and so
    does a document that is neither a string nor a list under the input
    type "string": no later stage runs. *)
Theorem find_keywords_bad_input (doc : document) (input_type : str) :
  (input_type ≠ py "file" ∧ input_type ≠ py "string") ∨
  (input_type = py "string" ∧ doc = DocOther) →
  parse_input doc input_type = Raise UnboundLocalError ∧
  find_keywords hp doc input_type = Raise UnboundLocalError.
Proof.
  intros Hbad.
  assert (parse_input doc input_type = Raise UnboundLocalError) as Hparse.
  { unfold parse_input. destruct Hbad as [[Hf Hs]|[-> ->]].
    - by rewrite !decide_False.
    - by rewrite decide_False, decide_True. }
  split; [done|]. unfold find_keywords. by rewrite Hparse.
Qed.

(** X13. Under the input type "file", the keywords of a path are those
    of the text of the file given as a string; when the file cannot be
    read, what reading raised is raised. *)
Theorem find_keywords_file (path : str) :
  match read_text path with
  | Ok content =>
      find_keywords hp (DocStr path) (py "file")
        = find_keywords hp (DocStr content) (py "string")
  | Raise e => find_keywords hp (DocStr path) (py "file") = Raise e
  end.
Proof.
  assert (parse_input (DocStr path) (py "file")
          = (content ← read_text path; Ok (split NEWLINE content))) as Hp
    by done.
  unfold find_keywords. rewrite Hp.
  by destruct (read_text path) as [content|e].
Qed.

(** X14. In a raw string, a newline counts as a space: the keywords of
    the string are those of the one line obtained by writing a space for
    each newline. *)
Theorem find_keywords_newlines (s : str) :
  find_keywords hp (DocStr s) (py "string")
    = find_keywords hp (DocList [newlines_to_spaces s]) (py "string").
Proof.
  assert (parse_input (DocStr s) (py "string") = Ok (split NEWLINE s)) as Hs
    by done.
  assert (parse_input (DocList [newlines_to_spaces s]) (py "string")
          = Ok [newlines_to_spaces s]) as Hl by done.
  unfold find_keywords. rewrite Hs, Hl. cbn [mbind result_bind].
  rewrite join_split_newlines. done.
Qed.

End InputMore.

Lemma find_keywords_bad_input_witness :
  @find_keywords ascii_unicode closed_world (default_hp ∅)
    (DocStr short_document) (py "text") = Raise UnboundLocalError.
Proof.
  apply (@find_keywords_bad_input ascii_unicode closed_world).
  left. by split.
Defined.

(** ** More on the keyword combiner *)

Section CombinerMore.
Context `{U : Unicode} `{E : External}.
Variable hp : Hyperparameters.

Lemma combine_fold_NoDup (node_ranks : list (str * Q)) : ∀ st,
  NoDup st.1.*1 → (∀ k, k ∈ st.1.*1 → k ∈ st.2) →
  NoDup (foldl (combine_step hp) st node_ranks).1.*1.
Proof.
  induction node_ranks as [|item nr IH]; intros st Hnd Hseen; [done|].
  cbn [foldl]. apply IH.
  - unfold combine_step. case_decide; [done|]. cbn [fst].
    case_decide as Hnew; [|done].
    rewrite fmap_app. apply NoDup_app. split_and!; [done| |].
    + intros k Hk Hk'. cbn in Hk'. apply list_elem_of_singleton in Hk'.
      subst k. by apply Hnew, Hseen.
    + apply NoDup_singleton.
  - unfold combine_step. case_decide; [done|]. cbn [fst snd].
    intros k Hk. case_decide as Hnew.
    + rewrite fmap_app, elem_of_app in Hk. cbn in Hk.
      destruct Hk as [Hk|Hk]; [|set_solver].
      apply Hseen in Hk. set_solver.
    + apply Hseen in Hk. set_solver.
Qed.

Lemma combine_fold_filter (node_ranks : list (str * Q)) : ∀ st,
  NoDup node_ranks.*1 → (∀ k, k ∈ node_ranks.*1 → k ∉ st.2) →
  (foldl (combine_step hp) st node_ranks).1
    = st.1 ++ filter (keeps hp) node_ranks.
Proof.
  induction node_ranks as [|item nr IH]; intros st Hnd Hfresh.
  - cbn. by rewrite app_nil_r.
  - rewrite fmap_cons in Hnd. apply NoDup_cons in Hnd as [Hitem Hnd].
    cbn [foldl]. rewrite IH; [|done|].
    + destruct (decide (keeps hp item)) as [Hk|Hk].
      * rewrite (filter_cons_True (keeps hp)) by done.
        unfold combine_step. rewrite decide_False by exact Hk. cbn [fst].
        rewrite decide_True by (apply Hfresh; by left).
        destruct item as [k v]. by rewrite <- app_assoc.
      * rewrite (filter_cons_False (keeps hp)) by done.
        unfold combine_step. rewrite decide_True; [done|].
        unfold keeps in Hk. by apply dec_stable.
    + intros k Hk. unfold combine_step. case_decide.
      * apply Hfresh. by right.
      * cbn [snd]. rewrite not_elem_of_union, not_elem_of_singleton.
        split; [|apply Hfresh; by right].
        intros ->. done.
Qed.

(** X15. The keywords that [combine_keywords] lists are pairwise
    distinct. On a rank table, whose keys are distinct, it lists exactly
    the entries whose lowercased token is no stopword and whose token has
    more than two characters, sorted by score from the highest down, entries
    of equal score in the order of the table. *)
Theorem combine_keywords_spec (node_ranks : list (str * Q)) :
  NoDup (combine_keywords hp node_ranks).*1 ∧
  (NoDup node_ranks.*1 →
   combine_keywords hp node_ranks = sorted_desc (filter (keeps hp) node_ranks) ∧
   combine_keywords hp node_ranks ≡ₚ filter (keeps hp) node_ranks ∧
   ∀ q, filter (λ kv, kv.2 == q) (combine_keywords hp node_ranks)
          = filter (λ kv, kv.2 == q) (filter (keeps hp) node_ranks)).
Proof.
  split.
  - unfold combine_keywords. rewrite sorted_desc_perm.
    apply combine_fold_NoDup; [apply NoDup_nil_2|].
    intros k Hk. by apply elem_of_nil in Hk.
  - intros Hnd.
    assert (combine_keywords hp node_ranks
            = sorted_desc (filter (keeps hp) node_ranks)) as ->.
    { unfold combine_keywords. by rewrite combine_fold_filter. }
    split_and!; [done | apply sorted_desc_perm | apply sorted_desc_stable].
Qed.

(** X16. With a non-negative [num_keywords], what [find_keywords] cuts
    off scores no higher than anything it returns, and it cuts something off
    only when it returns [num_keywords] keywords. *)
Theorem slice_keeps_top (node_ranks : list (str * Q)) :
  (0 ≤ num_keywords hp)%Z →
  let full := combine_keywords hp node_ranks in
  let out := slice_to full (num_keywords hp) in
  ∃ rest, full = out ++ rest ∧
    (∀ a b, a ∈ out → b ∈ rest → b.2 <= a.2) ∧
    (rest ≠ [] → Z.of_nat (length out) = num_keywords hp).
Proof.
  intros Hnk full out. unfold out, slice_to. rewrite decide_True by done.
  exists (drop (Z.to_nat (num_keywords hp)) full). split_and!.
  - by rewrite take_drop.
  - intros a b Ha Hb.
    apply (StronglySorted_app_1_elem_of score_ge
             (take (Z.to_nat (num_keywords hp)) full)
             (drop (Z.to_nat (num_keywords hp)) full)); [|done|done].
    rewrite take_drop. apply combine_keywords_sorted.
  - intros Hrest. rewrite length_take.
    destruct (decide (Z.to_nat (num_keywords hp) < length full)%nat)
      as [Hlt|Hge]; [lia|].
    exfalso. apply Hrest. apply drop_ge. lia.
Qed.

(** X17. The keywords that [find_keywords] returns are pairwise
    distinct. *)
Theorem find_keywords_distinct (doc : document) (input_type : str) :
  match find_keywords hp doc input_type with
  | Ok out => NoDup out.*1
  | Raise e => raised_outside hp doc input_type e
  end.
Proof.
  pose proof (find_keywords_cases hp doc input_type) as Hcases.
  destruct (find_keywords hp doc input_type) as [out|e]; [|done].
  destruct Hcases as [nr ->].
  destruct (slice_to_take (combine_keywords hp nr) (num_keywords hp))
    as [n ->].
  rewrite fmap_take. eapply sublist_NoDup; [|apply sublist_take].
  apply combine_keywords_spec.
Qed.

End CombinerMore.

Lemma slice_keeps_top_witness :
  ∃ rest,
    @combine_keywords ascii_unicode (default_hp ∅) [(py "york", 4)]
      = slice_to (@combine_keywords ascii_unicode (default_hp ∅)
                    [(py "york", 4)]) 10 ++ rest.
Proof.
  destruct (@slice_keeps_top ascii_unicode (default_hp ∅) [(py "york", 4)]
              ltac:(by vm_compute)) as (rest & Hfull & _).
  by exists rest.
Defined.

(** ** More on the constructor *)

Section ConstructorMore.
Variable stopwords_generic : gset str.

Lemma fold_setdefault_present (defaults : list (string * value)) :
  ∀ d : gmap string value,
    (∀ kv, kv ∈ defaults → is_Some (d !! kv.1)) →
    foldl setdefault d defaults = d.
Proof.
  induction defaults as [|kv defaults IH]; intros d Hall; [done|].
  cbn [foldl]. destruct (Hall kv ltac:(by left)) as [v Hv].
  unfold setdefault at 2. rewrite Hv. apply IH.
  intros kv' Hkv'. apply Hall. by right.
Qed.

Lemma fill_defaults_unfold_idem (d : gmap string value) :
  foldl setdefault (fill_defaults stopwords_generic d)
    (option_defaults stopwords_generic)
  = fill_defaults stopwords_generic d.
Proof.
  apply fold_setdefault_present.
  intros [k v] Hkv. cbn [fst].
  destruct (d !! k) as [v'|] eqn:Hk.
  - exists v'. by apply fold_setdefault_keeps.
  - exists v.
    apply fold_setdefault_fills; [apply option_defaults_NoDup|done|done].
Qed.

Lemma fill_defaults_idem (d : gmap string value) :
  fill_defaults stopwords_generic (fill_defaults stopwords_generic d)
    = fill_defaults stopwords_generic d.
Proof. unfold fill_defaults at 1. apply fill_defaults_unfold_idem. Qed.

(** X18. Building a detector on the dictionary at [l] touches no other
    object of the heap, and building a second detector on the same
    dictionary changes nothing any more: the options are set only where
    they are missing. *)
Theorem init_frame_and_again (h : heap) (cls : detector_class) (l : loc)
    (d : gmap string value) (va vb : bool) :
  objects h !! l = Some d →
  let made := init stopwords_generic cls h (Some l) va in
  (∀ l', l' ≠ l → objects made.1 !! l' = objects h !! l') ∧
  objects (init stopwords_generic cls made.1 (Some l) vb).1 = objects made.1 ∧
  fill_defaults stopwords_generic (fill_defaults stopwords_generic d)
    = fill_defaults stopwords_generic d.
Proof.
  intros Hl made.
  assert (objects made.1 = <[l := fill_defaults stopwords_generic d]> (objects h))
    as Hobj by (by apply init_options_objects).
  split_and!.
  - intros l' Hne. rewrite Hobj. by rewrite lookup_insert_ne.
  - unfold init at 1. cbn [fst default].
    rewrite (init_options_objects _ l made.1
               (fill_defaults stopwords_generic d)).
    + rewrite (fill_defaults_unfold_idem d), Hobj.
      by rewrite insert_insert_eq.
    + rewrite Hobj. apply lookup_insert_eq.
  - apply fill_defaults_idem.
Qed.

End ConstructorMore.

Lemma init_frame_and_again_witness :
  let h := {| objects := {[ 0%nat := ∅; 1%nat := ∅ ]} |} in
  objects (init ∅ {| default_hyperparameters := 2%nat |} h (Some 0%nat) true).1
    !! 1%nat = Some ∅.
Proof.
  intros h.
  destruct (init_frame_and_again ∅ h {| default_hyperparameters := 2%nat |}
              0%nat ∅ true true ltac:(by vm_compute)) as (Hframe & _ & _).
  unfold loc in *. rewrite Hframe by done. by vm_compute.
Defined.

(** ** Instances of the properties above *)

Lemma document_graph_nodes_witness :
  nodes (@document_graph ascii_unicode 1 [py "york"]) = [].
Proof.
  apply (@document_graph_nodes ascii_unicode 1 [py "york"]).
  cbn. lia.
Defined.

Lemma personalization_spec_witness :
  personalization_from ∅ [py "york"] ∅ = Raise KeyError.
Proof.
  apply (personalization_spec ∅ [py "york"]).
  exists (py "york"). split; [by left|done].
Defined.

Lemma combine_keywords_spec_witness :
  @combine_keywords ascii_unicode (default_hp ∅) [(py "york", 4); (py "ny", 2)]
    ≡ₚ filter (@keeps ascii_unicode (default_hp ∅))
         [(py "york", 4); (py "ny", 2)].
Proof.
  destruct (proj2 (@combine_keywords_spec ascii_unicode (default_hp ∅)
                     [(py "york", 4); (py "ny", 2)]))
    as (_ & Hperm & _).
  - cbn. by_decide.
  - exact Hperm.
Defined.
